(** * Divergence detection of the node monitor (nodes/monitor.go)

    A shallow embedding of the monitoring cycle [doChecks], of the helpers
    [findSplit] and [forPairs], and of the header store [blockDB], followed
    by the properties that the specification states about them.

    Conventions of the embedding:
    - Go's [int] and [int64] are 64-bit two's-complement integers, [uint64]
      is a 64-bit unsigned integer; all are carried by [Z] and every
      conversion is written out ([int_of], [uint64_of]).
    - [Node] values are references to node objects; the objects live in a
      store, so that the slice of active nodes aliases the configured ones.
    - Calls into libraries (sort, leveldb, rlp) are modelled after the
      documented behaviour of the library.

    Part I holds the definitions, Part II the lemmas and theorems. *)

From Stdlib Require Import ZArith Lia.
From stdpp Require Import sorting strings base decidable option list gmap fin_maps functions.

Local Open Scope Z_scope.

(** * Part I: the embedding *)

(** ** Machine integers *)

Module Int.

(** [int(x)] and [int64(x)]: reduction to the signed 64-bit range. *)
Definition int_of (z : Z) : Z := (z + 2 ^ 63) mod 2 ^ 64 - 2 ^ 63.

(** [uint64(x)]: reduction to the unsigned 64-bit range. *)
Definition uint64_of (z : Z) : Z := z mod 2 ^ 64.

Definition is_int (z : Z) : Prop := - 2 ^ 63 <= z < 2 ^ 63.
Definition is_uint64 (z : Z) : Prop := 0 <= z < 2 ^ 64.

End Int.
Import Int.

(** ** The parts of Go's sort package that the monitor calls *)

Module Sort.

(** The midpoint [int(uint(i+j) >> 1)] of [sort.Search]. *)
Definition midpoint (i j : Z) : Z :=
  int_of (Z.shiftr (uint64_of (int_of (i + j))) 1).

(** One run of the loop of [sort.Search],
<<
      i, j := 0, n
      for i < j {
        h := int(uint(i+j) >> 1)
        if !f(h) { i = h + 1 } else { j = h }
      }
      return i
>>
    as a relation between the bounds at loop entry and the value returned. *)
Inductive search_run (f : Z -> bool) : Z -> Z -> Z -> Prop :=
| search_exit i j :
    j <= i -> search_run f i j i
| search_right i j r :
    i < j -> f (midpoint i j) = false ->
    search_run f (midpoint i j + 1) j r -> search_run f i j r
| search_left i j r :
    i < j -> f (midpoint i j) = true ->
    search_run f i (midpoint i j) r -> search_run f i j r.

(** The same loop as a function; [fuel] bounds the number of iterations. *)
Fixpoint search_loop (fuel : nat) (f : Z -> bool) (i j : Z) : Z :=
  match fuel with
  | O => i
  | S fuel' =>
      if bool_decide (i < j) then
        let h := midpoint i j in
        if negb (f h) then search_loop fuel' f (h + 1) j
        else search_loop fuel' f i h
      else i
  end.

(** [sort.Search(n, f)]. Every iteration shrinks [j - i], so [n]
    iterations are always enough (lemma [Search_run] of Part II). *)
Definition Search (n : Z) (f : Z -> bool) : Z :=
  search_loop (Z.to_nat n) f 0 n.

(** The order of [sort.Reverse(sort.IntSlice(x))]: [Less(i, j)] is
    [x[j] < x[i]], so a sorted slice never has a smaller element before a
    larger one. *)
Definition reverse_le (x y : Z) : Prop := y <= x.

#[global] Instance reverse_le_dec : RelDecision reverse_le.
Proof. intros x y. unfold reverse_le. apply _. Defined.

#[global] Instance reverse_le_total : Total reverse_le.
Proof. intros x y. unfold reverse_le. lia. Qed.

#[global] Instance reverse_le_trans : Transitive reverse_le.
Proof. intros x y z. unfold reverse_le. lia. Qed.

#[global] Instance reverse_le_antisymm : AntiSymm (=) reverse_le.
Proof. intros x y. unfold reverse_le. lia. Qed.

(** [sort.Sort(sort.Reverse(sort.IntSlice(x)))]. The order is total on
    integers, so the sorted slice does not depend on the algorithm; the
    model sorts by merging. *)
Definition SortReverseInts (x : list Z) : list Z := merge_sort reverse_le x.

End Sort.

(** ** Data model *)

(** [common.Hash]: 32 bytes, read as one 256-bit number. *)
Abbreviation Hash := Z.

(** Go's [error]: [None] is [nil]. *)
Definition error : Type := option string.

Inductive NodeStatus : Type :=
| NodeStatusOK
| NodeStatusUnreachable.

#[global] Instance NodeStatus_eq_dec : EqDecision NodeStatus.
Proof. solve_decision. Defined.

(** Modelled from the spec: the block reference that [BlockAt] returns is
    declared outside nodes/monitor.go; the head reference of the data model
    is a height and an identity hash, and the monitor reads the field
    [hash]. *)
Record blockInfo : Type := mkBlockInfo { num : Z; hash : Hash }.

(** Modelled from the spec: the [Node] interface is declared outside
    nodes/monitor.go; the method set is the one of the interface section of
    the spec. [N] is the
    type of node objects. A method that changes the object returns the new
    object; the queries [HeadNum], [BlockAt], [HashAt], [Name] and [Version]
    are observations of the object. [Status] reads the field that
    [SetStatus] writes. *)
Class NodeAPI (N : Type) : Type := {
  Version : N -> string * error;
  UpdateLatest : N -> N * error;
  HeadNum : N -> Z;
  BlockAt : N -> Z -> bool -> option blockInfo;
  HashAt : N -> Z -> bool -> Hash;
  Name : N -> string;
  SetStatus : NodeStatus -> N -> N;
  Status : N -> NodeStatus;
  HeadNum_uint64 : forall n, is_uint64 (HeadNum n);
  Status_SetStatus : forall s n, Status (SetStatus s n) = s
}.

(** A [Node] value is a reference to a node object. *)
Definition Node : Type := nat.

(** Lines that the cycle writes to the log. *)
Inductive logEntry : Type :=
| LogErrorGettingLatest (node : string) (err : string)
| LogLatest (number : Z) (node : string)
| LogMissingBlocks (name : string) (number : Z)
| LogSplitFound (x y : string) (number : Z).

(** ** The monitoring cycle *)

Section Monitor.
Context {N : Type} `{NodeAPI N}.

(** The node objects, by reference. *)
Local Abbreviation objects := (Node -> N).

(** The variables of [doChecks] that the loops and the closure update. *)
Record cycle : Type := mkCycle {
  store : objects;
  activeNodes : list Node;
  heads : gmap Z bool;
  splitSize : Z;
  logged : list logEntry
}.

(** The body of the polling loop of [doChecks]. *)
Definition pollNode (c : cycle) (node : Node) : cycle :=
  let '(n1, err) := UpdateLatest (store c node) in
  let v := fst (Version n1) in
  match err with
  | Some e =>
      {| store := <[node := SetStatus NodeStatusUnreachable n1]> (store c);
         activeNodes := activeNodes c;
         heads := heads c;
         splitSize := splitSize c;
         logged := logged c ++ [LogErrorGettingLatest v e] |}
  | None =>
      let n2 := SetStatus NodeStatusOK n1 in
      let number := HeadNum n2 in
      {| store := <[node := n2]> (store c);
         activeNodes := activeNodes c ++ [node];
         heads := <[number := true]> (heads c);
         splitSize := splitSize c;
         logged := logged c ++ [LogLatest number v] |}
  end.

(** [for _, node := range mon.nodes { ... }] *)
Definition pollNodes (c : cycle) (nodes : list Node) : cycle :=
  foldl pollNode c nodes.

(** [findSplit(num, a, b)] *)
Definition findSplit (s : objects) (n : Z) (a b : Node) : Z :=
  Sort.Search n (fun i =>
    bool_decide (HashAt (s a) (uint64_of i) false ≠ HashAt (s b) (uint64_of i) false)).

(** [forPairs(elems, fn)]; [fn] acts on the variables it captures. *)
Definition forPairs {S : Type} (elems : list Node)
    (fn : Node -> Node -> S -> S) (s : S) : S :=
  foldl (fun s i =>
    foldl (fun s j =>
      match elems !! i, elems !! j with
      | Some a, Some b => fn a b s
      | _, _ => s
      end) s (seq (i + 1) (length elems - (i + 1))))
    s (seq 0 (length elems)).

(** [highest], the lower of the two head numbers. *)
Definition commonHorizon (s : objects) (a b : Node) : Z :=
  let highest := HeadNum (s a) in
  if bool_decide (HeadNum (s b) < highest) then HeadNum (s b) else highest.

(** [split] and [splitLength] of a pair that got past the hash comparison. *)
Definition splitHeight (s : objects) (a b : Node) : Z :=
  findSplit s (int_of (commonHorizon s a b)) a b.

Definition splitLength (s : objects) (a b : Node) : Z :=
  int_of (int_of (int_of (commonHorizon s a b) - splitHeight s a b)).

(** The closure that [doChecks] passes to [forPairs]. *)
Definition comparePair (a b : Node) (c : cycle) : cycle :=
  let s := store c in
  let highest := commonHorizon s a b in
  match BlockAt (s a) highest false with
  | None =>
      {| store := s; activeNodes := activeNodes c; heads := heads c;
         splitSize := splitSize c;
         logged := logged c ++ [LogMissingBlocks (Name (s a)) highest] |}
  | Some ha =>
      match BlockAt (s b) highest false with
      | None =>
          {| store := s; activeNodes := activeNodes c; heads := heads c;
             splitSize := splitSize c;
             logged := logged c ++ [LogMissingBlocks (Name (s b)) highest] |}
      | Some hb =>
          if bool_decide (hash ha = hash hb) then c
          else
            let split := findSplit s (int_of highest) a b in
            let length := int_of (int_of (int_of highest - split)) in
            let heads1 := <[uint64_of split := true]> (heads c) in
            {| store := s; activeNodes := activeNodes c;
               heads := if bool_decide (0 < split)
                        then <[uint64_of (int_of (split - 1)) := true]> heads1
                        else heads1;
               splitSize := if bool_decide (splitSize c < length)
                            then length else splitSize c;
               logged := logged c
                         ++ [LogSplitFound (Name (s a)) (Name (s b)) split] |}
      end
  end.

(** [for k, _ := range heads { headList = append(headList, int(k)) }].
    Go leaves the order of a map range open; the sort that follows makes
    the list independent of it (lemma [SortReverseInts_order] of Part II). *)
Definition rangeKeys (m : gmap Z bool) : list Z := (map_to_list m).*1.

(** What a cycle hands on: the variables after both loops, the value given
    to the gauge [chain/split], and the list given to [NewReport]. The
    report itself and the files written from it are built by code outside
    nodes/monitor.go and are left out. *)
Record checked : Type := mkChecked {
  final : cycle;
  gauge : Z;
  headList : list Z
}.

(** The variables as [doChecks] declares them. *)
Definition freshCycle (s : objects) : cycle :=
  {| store := s; activeNodes := []; heads := ∅; splitSize := 0; logged := [] |}.

Definition doChecks (s : objects) (nodes : list Node) : checked :=
  let c1 := pollNodes (freshCycle s) nodes in
  let c2 := forPairs (activeNodes c1) comparePair c1 in
  {| final := c2;
     gauge := int_of (splitSize c2);
     headList := Sort.SortReverseInts (int_of <$> rangeKeys (heads c2)) |}.

(** The pairs that [forPairs] hands to its callback, in call order. *)
Definition pairCalls (elems : list Node) : list (Node * Node) :=
  forPairs elems (fun a b calls => calls ++ [(a, b)]) [].

(** The pair gets past both [BlockAt] calls and the hashes differ. *)
Definition diverging (s : objects) (a b : Node) : bool :=
  match BlockAt (s a) (commonHorizon s a b) false,
        BlockAt (s b) (commonHorizon s a b) false with
  | Some ha, Some hb => bool_decide (hash ha ≠ hash hb)
  | _, _ => false
  end.

(** One of the two [BlockAt] calls of the pair returns nil. *)
Definition missingBlock (s : objects) (a b : Node) : bool :=
  match BlockAt (s a) (commonHorizon s a b) false with
  | None => true
  | Some _ =>
      match BlockAt (s b) (commonHorizon s a b) false with
      | None => true
      | Some _ => false
      end
  end.

(** The poll of the object behind [r] succeeds. *)
Definition pollOk (s : objects) (r : Node) : bool :=
  bool_decide (snd (UpdateLatest (s r)) = None).

(** The object behind [r] after its poll: updated, with the status that
    the outcome of the poll gives. *)
Definition polledObject (s : objects) (r : Node) : N :=
  SetStatus (if pollOk s r then NodeStatusOK else NodeStatusUnreachable)
            (fst (UpdateLatest (s r))).

(** What one call of the closure does to [heads] and to [splitSize]. *)
Definition pairHeads (s : objects) (a b : Node) (m : gmap Z bool) : gmap Z bool :=
  if diverging s a b then
    let m1 := <[uint64_of (splitHeight s a b) := true]> m in
    if bool_decide (0 < splitHeight s a b)
    then <[uint64_of (int_of (splitHeight s a b - 1)) := true]> m1
    else m1
  else m.

Definition pairSize (s : objects) (a b : Node) (z : Z) : Z :=
  if diverging s a b then
    if bool_decide (z < splitLength s a b) then splitLength s a b else z
  else z.

End Monitor.

(** ** The header store *)

(** The part of goleveldb that [blockDB] calls: a table from keys to
    values behind a handle whose operations can fail. [failing] says which
    operations of the handle currently fail, and with which error (a closed
    handle, an unreadable or damaged file); a missing key is the error
    [ErrNotFound] of [Get] and no error of [Has]. *)
Module LevelDB.

Inductive dbError : Type :=
| ErrNotFound
| ErrClosed
| ErrCorrupted (reason : string)
| ErrIO (reason : string).

Inductive operation : Type := OpHas | OpGet | OpPut.

Record DB : Type := mkDB {
  table : gmap Z (list Byte.byte);
  failing : operation -> option dbError
}.

(** [db.Has(key, nil)] returns [(ret bool, err error)]. *)
Definition Has (d : DB) (key : Z) : bool * option dbError :=
  match failing d OpHas with
  | Some e => (false, Some e)
  | None => (bool_decide (is_Some (table d !! key)), None)
  end.

(** [db.Get(key, nil)] returns [(value []byte, err error)]. *)
Definition Get (d : DB) (key : Z) : list Byte.byte * option dbError :=
  match failing d OpGet with
  | Some e => ([], Some e)
  | None =>
      match table d !! key with
      | Some value => (value, None)
      | None => ([], Some ErrNotFound)
      end
  end.

(** [db.Put(key, value, nil)] returns [err error]; the handle is updated
    in place. *)
Definition Put (d : DB) (key : Z) (value : list Byte.byte) : DB * option dbError :=
  match failing d OpPut with
  | Some e => (d, Some e)
  | None => ({| table := <[key := value]> (table d); failing := failing d |}, None)
  end.


End LevelDB.

(** A Go call either returns or panics. *)
Inductive outcome (A : Type) : Type :=
| Returns (a : A)
| Panics (msg : string).
Arguments Returns {A} a.
Arguments Panics {A} msg.

Record blockDB : Type := mkBlockDB { db : LevelDB.DB }.

Section HeaderStore.

(** [types.Header] and its RLP coding belong to go-ethereum. *)
Variable Header : Type.
Variable EncodeToBytes : Header -> list Byte.byte + string.
Variable DecodeBytes : list Byte.byte -> Header + string.

(** [add(key, h)] of [blockDB]; the result is the store after the call. *)
Definition add (d : blockDB) (key : Hash) (h : Header) : outcome blockDB :=
  let k := key in
  if fst (LevelDB.Has (db d) k) then Returns d
  else
    match EncodeToBytes h with
    | inr err => Panics ("Failed encoding header: " ++ err)
    | inl data => Returns {| db := fst (LevelDB.Put (db d) k data) |}
    end.

(** [get(key)] of [blockDB]; [None] is the nil header. *)
Definition get (d : blockDB) (key : Hash) : outcome (option Header) :=
  let '(data, err) := LevelDB.Get (db d) key in
  match err with
  | Some _ => Returns None
  | None =>
      match DecodeBytes data with
      | inr err => Panics ("Failed decoding our own data: " ++ err)
      | inl h => Returns (Some h)
      end
  end.

End HeaderStore.

Section OpenStore.

(** [leveldb.OpenFile] and [leveldb.RecoverFile] act on the file system,
    here [World]; each returns a handle or an error. *)
Variable World : Type.
Variable OpenFile : string -> World -> (LevelDB.DB + LevelDB.dbError) * World.
Variable RecoverFile : string -> World -> (LevelDB.DB + LevelDB.dbError) * World.

(** [NewBlockDB()], which returns a store or an error. *)
Definition NewBlockDB (w : World) : (blockDB + LevelDB.dbError) * World :=
  let file := "blockDB"%string in
  let '(r, w1) := OpenFile file w in
  let '(r, w2) :=
    match r with
    | inr (LevelDB.ErrCorrupted _) => RecoverFile file w1
    | _ => (r, w1)
    end in
  match r with
  | inr err => (inr err, w2)
  | inl d => (inl {| db := d |}, w2)
  end.

End OpenStore.

(** ** A simulated node

    An implementation of the [Node] interface whose chain and whose answers
    to the coming polls are written down in the object. The examples of
    Part II run the cycle on it. *)
Module Sim.

Record simNode : Type := mkSim {
  sim_name : string;
  sim_status : NodeStatus;
  sim_head : Z;
  sim_polls : list (option Z);
  sim_hashes : Z -> Hash;
  sim_missing : Z -> bool
}.

(** The next poll answers with a head number, or fails. *)
Definition sim_update (n : simNode) : simNode * error :=
  match sim_polls n with
  | Some h :: rest =>
      ({| sim_name := sim_name n; sim_status := sim_status n; sim_head := h;
          sim_polls := rest; sim_hashes := sim_hashes n;
          sim_missing := sim_missing n |}, None)
  | None :: rest =>
      ({| sim_name := sim_name n; sim_status := sim_status n;
          sim_head := sim_head n; sim_polls := rest;
          sim_hashes := sim_hashes n; sim_missing := sim_missing n |},
       Some "connection refused"%string)
  | [] => (n, Some "no answer"%string)
  end.

Definition sim_set_status (st : NodeStatus) (n : simNode) : simNode :=
  {| sim_name := sim_name n; sim_status := st; sim_head := sim_head n;
     sim_polls := sim_polls n; sim_hashes := sim_hashes n;
     sim_missing := sim_missing n |}.

Definition sim_block (n : simNode) (height : Z) (force : bool) : option blockInfo :=
  if sim_missing n height then None
  else Some {| num := height; hash := sim_hashes n height |}.

#[global] Program Instance sim_api : NodeAPI simNode := {|
  Version n := ("sim/1.0"%string, None);
  UpdateLatest := sim_update;
  HeadNum n := uint64_of (sim_head n);
  BlockAt := sim_block;
  HashAt n height force := sim_hashes n height;
  Name := sim_name;
  SetStatus := sim_set_status;
  Status := sim_status
|}.
Next Obligation.
  intros n. unfold is_uint64, uint64_of. apply Z.mod_pos_bound. lia.
Qed.
Next Obligation. reflexivity. Qed.

(** A node named [name] whose next poll answers [poll] and whose chain
    has the hash [chain i] at height [i]. *)
Definition node (name : string) (poll : option Z) (chain : Z -> Hash) : simNode :=
  {| sim_name := name; sim_status := NodeStatusUnreachable; sim_head := 0;
     sim_polls := [poll]; sim_hashes := chain; sim_missing := fun _ => false |}.

(** The objects behind the references 0, 1 and 2 (and every other). *)
Definition three (a b c : simNode) : Node -> simNode :=
  fun r => match r with O => a | S O => b | _ => c end.

(** Three nodes with heads 100, 100 and 98; the chain of the second
    parts from the others at height 50. *)
Definition fleet : Node -> simNode :=
  three (node "A" (Some 100) (fun i => i))
        (node "B" (Some 100) (fun i => if i <? 50 then i else i + 1000))
        (node "C" (Some 98) (fun i => i)).

(** As [fleet], but the second node, [NodeStatusOK] so far, fails its
    poll. *)
Definition fleetDown : Node -> simNode :=
  three (node "A" (Some 100) (fun i => i))
        (sim_set_status NodeStatusOK
           (node "B" None (fun i => if i <? 50 then i else i + 1000)))
        (node "C" (Some 98) (fun i => i)).

(** As [fleet], but the third node has no block at height 98. *)
Definition fleetGap : Node -> simNode :=
  three (node "A" (Some 100) (fun i => i))
        (node "B" (Some 100) (fun i => if i <? 50 then i else i + 1000))
        {| sim_name := "C"; sim_status := NodeStatusOK; sim_head := 0;
           sim_polls := [Some 98]; sim_hashes := fun i => i;
           sim_missing := fun i => bool_decide (i = 98) |}.

(** Two nodes that report the head [2^63] and differ at every height. *)
Definition fleetHigh : Node -> simNode :=
  three (node "A" (Some (2 ^ 63)) (fun i => i))
        (node "B" (Some (2 ^ 63)) (fun i => i + 1))
        (node "C" None (fun i => i)).

(** Two nodes on one chain, with the heads 5 and [2^63]. *)
Definition fleetFar : Node -> simNode :=
  three (node "A" (Some 5) (fun i => i))
        (node "B" (Some (2 ^ 63)) (fun i => i))
        (node "C" None (fun i => i)).

End Sim.

(** ** Notions that the statements of Part II use *)

(** Every pair of an element with a later one, in list order. *)
Fixpoint pairsOf {A : Type} (l : list A) : list (A * A) :=
  match l with
  | [] => []
  | x :: rest => (pair x <$> rest) ++ pairsOf rest
  end.

(** A list of ordered pairs read as unordered ones: every pair is listed
    in both orders. *)
Definition bothWays {A : Type} (ps : list (A * A)) : list (A * A) :=
  ps ++ (prod_swap <$> ps).

(** The largest element of a list of lengths, 0 for no element. *)
Definition maxLength (l : list Z) : Z := foldr Z.max 0 l.

(** ** A store for the examples

    Headers that are their own coding (no header codes to the empty
    string), and a world of one file that is damaged and can or cannot be
    recovered. *)
Module SimStore.

Definition header : Type := list Byte.byte.

Definition encode (h : header) : list Byte.byte + string :=
  match h with
  | [] => inr "no fields"%string
  | _ => inl h
  end.

Definition decode (data : list Byte.byte) : header + string :=
  match data with
  | [] => inr "too few elements"%string
  | _ => inl data
  end.

Definition empty : blockDB :=
  {| db := {| LevelDB.table := ∅; LevelDB.failing := fun _ => None |} |}.

(** The world says whether the damaged file can be recovered. *)
Definition open (file : string) (recoverable : bool)
    : (LevelDB.DB + LevelDB.dbError) * bool :=
  (inr (LevelDB.ErrCorrupted "manifest"), recoverable).

Definition recover (file : string) (recoverable : bool)
    : (LevelDB.DB + LevelDB.dbError) * bool :=
  if recoverable then (inl (db empty), recoverable)
  else (inr (LevelDB.ErrIO "unreadable"), recoverable).

End SimStore.

(** ** The rest of the monitor *)

(** The iterations of the loop of [sort.Search], counted; every iteration
    evaluates the predicate once. *)
Fixpoint search_iterations (fuel : nat) (f : Z -> bool) (i j : Z) : nat :=
  match fuel with
  | O => O
  | S fuel' =>
      if bool_decide (i < j) then
        let h := Sort.midpoint i j in
        S (if negb (f h) then search_iterations fuel' f (h + 1) j
           else search_iterations fuel' f i h)
      else O
  end.

Module Mon.

(** [time.Second], in the nanoseconds of [time.Duration]. *)
Definition Second : Z := 1000000000.

(** [NodeMonitor], without the channel and the wait group of the
    background loop. [backend] is [None] for a nil store. *)
Record NodeMonitor : Type := mkNodeMonitor {
  nodes : list Node;
  backend : option blockDB;
  reloadInterval : Z
}.

(** Lines that [NewMonitor] writes to the log. *)
Inductive startLog : Type :=
| LogErrorCheckingVersion (err : string)
| LogRPCNodeOK (version : string).

End Mon.

Section NewMonitor.
Context {N : Type} `{NodeAPI N}.
Local Abbreviation objects := (Node -> N).

(** The body of the health check loop of [NewMonitor]. *)
Definition healthCheck (st : objects * list Mon.startLog) (node : Node)
    : objects * list Mon.startLog :=
  let '(s, log) := st in
  let '(v, err) := Version (s node) in
  let '(s1, log1) :=
    match err with
    | Some e => (<[node := SetStatus NodeStatusUnreachable (s node)]> s,
                 log ++ [Mon.LogErrorCheckingVersion e])
    | None => (<[node := SetStatus NodeStatusOK (s node)]> s, log)
    end in
  (s1, log1 ++ [Mon.LogRPCNodeOK v]).

(** What [NewMonitor] leaves behind: the monitor and the error it
    returns, the log of the health check, and the first cycle, which it
    runs before it returns. *)
Record started : Type := mkStarted {
  monitor : Mon.NodeMonitor;
  startError : error;
  startLogged : list Mon.startLog;
  firstCycle : @checked N
}.

(** [NewMonitor(nodes, db, reload)] *)
Definition NewMonitor (s : objects) (nodes : list Node) (db : option blockDB)
    (reload : Z) : started :=
  let '(s1, log) := foldl healthCheck (s, []) nodes in
  let reload := if bool_decide (reload = 0) then int_of (10 * Mon.Second)
                else reload in
  let nm := {| Mon.nodes := nodes; Mon.backend := db;
               Mon.reloadInterval := reload |} in
  {| monitor := nm; startError := None; startLogged := log;
     firstCycle := doChecks s1 (Mon.nodes nm) |}.

End NewMonitor.

(** ** Writing the report and the headers *)

(** The part of the file system that the cycle uses: files by path, and
    the operations that fail on a path (a missing directory, a path that
    may not be read or written). *)
Module FS.

Inductive fsError : Type := ErrNotExist | ErrPermission.

Inductive operation : Type := OpStat | OpWrite.

Record world : Type := mkWorld {
  files : gmap string (list Byte.byte);
  failing : operation -> string -> bool
}.

(** The error of [os.Stat(name)]. *)
Definition Stat (w : world) (name : string) : option fsError :=
  if failing w OpStat name then Some ErrPermission
  else match files w !! name with
       | Some _ => None
       | None => Some ErrNotExist
       end.

(** [os.IsNotExist(err)] *)
Definition IsNotExist (e : option fsError) : bool :=
  match e with
  | Some ErrNotExist => true
  | _ => false
  end.

(** [ioutil.WriteFile(name, data, perm)]: the file is created or
    replaced. *)
Definition WriteFile (w : world) (name : string) (data : list Byte.byte)
    : world * option fsError :=
  if failing w OpWrite name then (w, Some ErrPermission)
  else ({| files := <[name := data]> (files w); failing := failing w |}, None).

End FS.

(** What the end of a cycle writes to the log or prints. *)
Inductive persistEvent : Type :=
| WarnJsonMarshal (err : string)
| Printed (report : list Byte.byte)
| WarnWriteFile (err : FS.fsError)
| WarnMissingHeader (hash : Hash)
| WarnMarshalHeader (err : string).

Section Persist.

Variable Header : Type.
Variable DecodeBytes : list Byte.byte -> Header + string.

(** [json.MarshalIndent(hdr)] of a header, and the file name
    [fmt.Sprintf] makes of a hash. *)
Variable MarshalIndent : Header -> list Byte.byte + string.
Variable hashFile : Hash -> string.

(** [for _, hash := range r.Hashes { ... }], the last loop of [doChecks]:
    [continue] goes on with the rest, [return] ends the loop. *)
Fixpoint exportHashes (backend : blockDB) (hashes : list Hash)
    (w : FS.world) (log : list persistEvent)
    : outcome (FS.world * list persistEvent) :=
  match hashes with
  | [] => Returns (w, log)
  | hash :: rest =>
      match get Header DecodeBytes backend hash with
      | Panics msg => Panics msg
      | Returns None =>
          exportHashes backend rest w (log ++ [WarnMissingHeader hash])
      | Returns (Some hdr) =>
          let fname := hashFile hash in
          if FS.IsNotExist (FS.Stat w fname) then
            match MarshalIndent hdr with
            | inr e =>
                exportHashes backend rest w (log ++ [WarnMarshalHeader e])
            | inl data =>
                match FS.WriteFile w fname data with
                | (w1, Some e) => Returns (w1, log ++ [WarnWriteFile e])
                | (w1, None) => exportHashes backend rest w1 log
                end
            end
          else exportHashes backend rest w log
      end
  end.

(** The end of [doChecks], from [json.MarshalIndent(r)] on. The report
    [r] is built by code outside nodes/monitor.go: [jsd] is the result of
    marshalling it and [hashes] is [r.Hashes]. *)
Definition persistReport (backend : option blockDB)
    (jsd : list Byte.byte + string) (hashes : list Hash) (w : FS.world)
    : outcome (FS.world * list persistEvent) :=
  match jsd with
  | inr e => Returns (w, [WarnJsonMarshal e])
  | inl jsd =>
      match backend with
      | None => Returns (w, [Printed jsd])
      | Some b =>
          match FS.WriteFile w "www/data.json" jsd with
          | (w1, Some e) => Returns (w1, [WarnWriteFile e])
          | (w1, None) => exportHashes b hashes w1 []
          end
      end
  end.

End Persist.

(** ** Notions for the further properties *)

Section StartNotions.
Context {N : Type} `{NodeAPI N}.
Local Abbreviation objects := (Node -> N).

(** The status that the health check gives the object behind [r]. *)
Definition checkedStatus (s : objects) (r : Node) : NodeStatus :=
  match snd (Version (s r)) with
  | Some _ => NodeStatusUnreachable
  | None => NodeStatusOK
  end.

(** The lines that the health check of the object behind [r] logs. *)
Definition checkedLog (s : objects) (r : Node) : list Mon.startLog :=
  match Version (s r) with
  | (v, Some e) => [Mon.LogErrorCheckingVersion e; Mon.LogRPCNodeOK v]
  | (v, None) => [Mon.LogRPCNodeOK v]
  end.

End StartNotions.

Definition isRPCNodeOK (l : Mon.startLog) : bool :=
  match l with
  | Mon.LogRPCNodeOK _ => true
  | _ => false
  end.

Module SimMore.

(** A store that holds one header, under the key 7. *)
Definition one : blockDB :=
  {| db := {| LevelDB.table := {[ 7 := [Byte.x61] ]};
              LevelDB.failing := fun _ => None |} |}.

(** An empty store whose writes fail. *)
Definition readOnly : blockDB :=
  {| db := {| LevelDB.table := ∅;
              LevelDB.failing := fun op =>
                match op with
                | LevelDB.OpPut => Some (LevelDB.ErrIO "read-only file system")
                | _ => None
                end |} |}.

(** A file system with no file in which every operation works. *)
Definition disk : FS.world :=
  {| FS.files := ∅; FS.failing := fun _ _ => false |}.

(** The file of a hash, by a table for the hashes of the examples. *)
Definition hashFile (hash : Hash) : string :=
  if bool_decide (hash = 7) then "www/hashes/0x07.json"
  else if bool_decide (hash = 8) then "www/hashes/0x08.json"
  else "www/hashes/0x00.json".

(** A node whose version cannot be read: the simulated node, but for
    [Version]. *)
#[global] Program Instance mute_api : NodeAPI (Sim.simNode * unit) := {|
  Version n := (""%string, Some "timeout"%string);
  UpdateLatest n := ((fst (Sim.sim_update (fst n)), tt), snd (Sim.sim_update (fst n)));
  HeadNum n := uint64_of (Sim.sim_head (fst n));
  BlockAt n := Sim.sim_block (fst n);
  HashAt n height force := Sim.sim_hashes (fst n) height;
  Name n := Sim.sim_name (fst n);
  SetStatus st n := (Sim.sim_set_status st (fst n), tt);
  Status n := Sim.sim_status (fst n)
|}.
Next Obligation.
  intros n. unfold is_uint64, uint64_of. apply Z.mod_pos_bound. lia.
Qed.
Next Obligation. reflexivity. Qed.

End SimMore.

Module SimDisk.

(** A file system that holds the file of the hash 7 already. *)
Definition old : FS.world :=
  {| FS.files := {[ "www/hashes/0x07.json"%string := [Byte.x00] ]};
     FS.failing := fun _ _ => false |}.

(** A store that holds headers under the keys 7 and 8. *)
Definition two : blockDB :=
  {| db := {| LevelDB.table := {[ 7 := [Byte.x61]; 8 := [Byte.x62] ]};
              LevelDB.failing := fun _ => None |} |}.

(** A store whose bytes under the key 7 do not decode. *)
Definition broken : blockDB :=
  {| db := {| LevelDB.table := {[ 7 := [] ]};
              LevelDB.failing := fun _ => None |} |}.

(** What a call leaves when it returns. *)
Definition ran (o : outcome (FS.world * list persistEvent))
    : FS.world * list persistEvent :=
  match o with
  | Returns r => r
  | Panics _ => (old, [])
  end.

(** The end of a cycle whose report names the hashes 7 and 8, on [old]
    with the store [two]. *)
Definition exported : outcome (FS.world * list persistEvent) :=
  persistReport SimStore.header SimStore.decode SimStore.encode
    SimMore.hashFile (Some two) (inl [Byte.x7b; Byte.x7d]) [7; 8] old.

End SimDisk.

(** * Part II: properties *)

(** ** Conversions between the integer types *)

Lemma int_of_id z : is_int z -> int_of z = z.
Proof.
  unfold is_int, int_of. intros Hz.
  rewrite Z.mod_small by lia. lia.
Qed.

Lemma uint64_of_id z : is_uint64 z -> uint64_of z = z.
Proof. unfold is_uint64, uint64_of. intros Hz. now apply Z.mod_small. Qed.

Lemma int_of_range z : is_int (int_of z).
Proof.
  unfold is_int, int_of.
  pose proof (Z.mod_pos_bound (z + 2 ^ 63) (2 ^ 64) ltac:(lia)). lia.
Qed.

Lemma uint64_of_range z : is_uint64 (uint64_of z).
Proof. unfold is_uint64, uint64_of. apply Z.mod_pos_bound. lia. Qed.

(** A height of [2^63] or more turns negative as an [int]. *)
Lemma int_of_high z : 2 ^ 63 <= z < 2 ^ 64 -> int_of z = z - 2 ^ 64.
Proof.
  unfold int_of. intros Hz.
  replace (z + 2 ^ 63) with (z - 2 ^ 63 + 1 * 2 ^ 64) by lia.
  rewrite Z.mod_add, Z.mod_small by lia. lia.
Qed.

Lemma int_of_low z : 0 <= z < 2 ^ 63 -> int_of z = z.
Proof. intros Hz. apply int_of_id. unfold is_int. lia. Qed.

(** On the unsigned range the conversion to [int] loses nothing: two
    heights with the same [int] are the same height. *)
Lemma int_of_inj x y :
  is_uint64 x -> is_uint64 y -> int_of x = int_of y -> x = y.
Proof.
  unfold is_uint64. intros Hx Hy Heq.
  destruct (Z_lt_ge_dec x (2 ^ 63)), (Z_lt_ge_dec y (2 ^ 63));
    rewrite ?(int_of_low x), ?(int_of_low y),
            ?(int_of_high x), ?(int_of_high y) in Heq by lia; lia.
Qed.

(** ** sort.Search *)

Lemma midpoint_half i j :
  0 <= i -> i <= j -> j < 2 ^ 63 -> Sort.midpoint i j = (i + j) / 2.
Proof.
  intros Hi Hij Hj. unfold Sort.midpoint.
  assert (Hh : 0 <= (i + j) / 2 < 2 ^ 63).
  { split; [apply Z.div_pos; lia|]. apply Z.div_lt_upper_bound; lia. }
  destruct (Z_lt_ge_dec (i + j) (2 ^ 63)) as [Hlt|Hge].
  - rewrite (int_of_low (i + j)) by lia.
    rewrite uint64_of_id by (unfold is_uint64; lia).
    rewrite Z.shiftr_div_pow2 by lia. change (2 ^ 1) with 2.
    now apply int_of_low.
  - rewrite (int_of_high (i + j)) by lia.
    unfold uint64_of.
    replace (i + j - 2 ^ 64) with (i + j + (-1) * 2 ^ 64) by lia.
    rewrite Z.mod_add, Z.mod_small by lia.
    rewrite Z.shiftr_div_pow2 by lia. change (2 ^ 1) with 2.
    now apply int_of_low.
Qed.

Lemma midpoint_between i j :
  0 <= i -> i < j -> j < 2 ^ 63 -> i <= Sort.midpoint i j < j.
Proof.
  intros Hi Hij Hj. rewrite midpoint_half by lia.
  split.
  - apply Z.div_le_lower_bound; lia.
  - apply Z.div_lt_upper_bound; lia.
Qed.

(** The function computes the loop: with fuel for [j - i] iterations the
    loop has exited, and the value is the one the loop returns. *)
Lemma search_loop_run f fuel i j :
  0 <= i -> j < 2 ^ 63 -> j - i <= Z.of_nat fuel ->
  Sort.search_run f i j (Sort.search_loop fuel f i j).
Proof.
  revert i j. induction fuel as [|fuel IH]; intros i j Hi Hj Hfuel.
  - simpl. apply Sort.search_exit. lia.
  - simpl. case_bool_decide as Hlt.
    + pose proof (midpoint_between i j Hi Hlt Hj) as Hm.
      destruct (f (Sort.midpoint i j)) eqn:Hf; simpl.
      * apply Sort.search_left; [done..|]. apply IH; lia.
      * apply Sort.search_right; [done..|]. apply IH; lia.
    + apply Sort.search_exit. lia.
Qed.

(** The loop returns one value only. *)
Lemma search_run_det f i j r1 r2 :
  Sort.search_run f i j r1 -> Sort.search_run f i j r2 -> r1 = r2.
Proof.
  intros H1. revert r2.
  induction H1 as [i j Hle|i j r Hlt Hf _ IH|i j r Hlt Hf _ IH];
    intros r2 H2; inversion H2; subst; try lia; try congruence; auto.
Qed.

(** [Search] returns, for every [n] an [int] can hold. *)
Lemma Search_run f n :
  n < 2 ^ 63 -> Sort.search_run f 0 n (Sort.Search n f).
Proof.
  intros Hn. unfold Sort.Search. apply search_loop_run; lia.
Qed.

(** The contract of [sort.Search] for a predicate that is false on
    [0, k) and true on [k, n): the loop returns [k]. *)
Lemma search_run_split f k n i j r :
  (forall x, 0 <= x < k -> f x = false) ->
  (forall x, k <= x < n -> f x = true) ->
  0 <= i -> i <= k -> k <= j -> j <= n -> n < 2 ^ 63 ->
  Sort.search_run f i j r -> r = k.
Proof.
  intros Hlo Hhi Hi Hik Hkj Hjn Hn Hrun.
  induction Hrun as [i j Hle|i j r Hlt Hf _ IH|i j r Hlt Hf _ IH].
  - lia.
  - pose proof (midpoint_between i j Hi Hlt ltac:(lia)) as Hm.
    apply IH; try lia.
    destruct (Z_lt_ge_dec (Sort.midpoint i j) k); [lia|].
    rewrite Hhi in Hf by lia. discriminate.
  - pose proof (midpoint_between i j Hi Hlt ltac:(lia)) as Hm.
    apply IH; try lia.
    destruct (Z_lt_ge_dec (Sort.midpoint i j) k); [|lia].
    rewrite Hlo in Hf by lia. discriminate.
Qed.

Lemma Search_split f k n :
  (forall x, 0 <= x < k -> f x = false) ->
  (forall x, k <= x < n -> f x = true) ->
  0 <= k <= n -> n < 2 ^ 63 ->
  Sort.Search n f = k.
Proof.
  intros Hlo Hhi Hk Hn.
  eapply (search_run_split f k n 0 n); eauto using Search_run; lia.
Qed.

(** The result lies between the bounds. *)
Lemma search_run_bounds f i j r :
  0 <= i -> i <= j -> j < 2 ^ 63 -> Sort.search_run f i j r -> i <= r <= j.
Proof.
  intros Hi Hij Hj Hrun.
  induction Hrun as [i j Hle|i j r Hlt Hf _ IH|i j r Hlt Hf _ IH].
  - lia.
  - pose proof (midpoint_between i j Hi Hlt Hj). lia.
  - pose proof (midpoint_between i j Hi Hlt Hj). lia.
Qed.

Lemma Search_bounds f n : 0 <= n < 2 ^ 63 -> 0 <= Sort.Search n f <= n.
Proof.
  intros Hn. apply (search_run_bounds f 0 n); [lia..|].
  apply Search_run. lia.
Qed.

(** A negative bound, which [int(highest)] is from [2^63] on, leaves
    nothing to search. *)
Lemma Search_nonpos f n : n <= 0 -> Sort.Search n f = 0.
Proof.
  intros Hn. unfold Sort.Search.
  destruct (Z.to_nat n) eqn:E; simpl; [done|].
  rewrite bool_decide_eq_false_2; [done|lia].
Qed.

Lemma Search_int f n : is_int n -> 0 <= Sort.Search n f < 2 ^ 63.
Proof.
  unfold is_int. intros Hn.
  destruct (Z_le_gt_dec n 0).
  - rewrite Search_nonpos by done. lia.
  - pose proof (Search_bounds f n). lia.
Qed.

(** ** The divergence finder *)

Section FindSplit.
Context {N : Type} `{NodeAPI N}.
Local Abbreviation objects := (Node -> N).

(** C1. When the hashes that two nodes report agree at the heights of
    [0, k) and differ at the heights of [k, n), [findSplit(n, a, b)] is
    [k], for every [k] from 0 to [n] (the ends included) and every [n]
    that an [int] holds. *)
Theorem findSplit_exact (s : objects) (n k : Z) (a b : Node) :
  0 <= k <= n -> n < 2 ^ 63 ->
  (forall i, 0 <= i < k -> HashAt (s a) i false = HashAt (s b) i false) ->
  (forall i, k <= i < n -> HashAt (s a) i false ≠ HashAt (s b) i false) ->
  findSplit s n a b = k.
Proof.
  intros Hk Hn Hsame Hdiff. unfold findSplit.
  apply Search_split; [| |done..].
  - intros x Hx. rewrite uint64_of_id by (unfold is_uint64; lia).
    apply bool_decide_eq_false_2. intros Hne. apply Hne, Hsame. lia.
  - intros x Hx. rewrite uint64_of_id by (unfold is_uint64; lia).
    apply bool_decide_eq_true_2, Hdiff. lia.
Qed.

End FindSplit.

(** Two chains that part at height 50, searched below height 100. *)
Lemma findSplit_exact_witness :
  findSplit
    (Sim.three (Sim.node "A" (Some 100) (fun i => i))
               (Sim.node "B" (Some 100) (fun i => if i <? 50 then i else i + 1000))
               (Sim.node "C" (Some 98) (fun i => i)))
    100 0%nat 1%nat = 50.
Proof.
  apply findSplit_exact; [lia|lia| |]; intros i Hi; simpl;
    destruct (Z.ltb_spec i 50); lia.
Defined.

(** ** The pairwise comparator *)

Section ForPairs.
Context {S : Type}.

(** The inner loop visits the elements behind position [i] in order. *)
Lemma forPairs_inner (g : Node -> S -> S) (elems pre rest : list Node) (s : S) :
  elems = pre ++ rest ->
  foldl (fun s j =>
      match elems !! j with Some b => g b s | None => s end)
    s (seq (length pre) (length rest))
  = foldl (fun s b => g b s) s rest.
Proof.
  revert pre s. induction rest as [|x rest IH]; intros pre s Helems; [done|].
  simpl. rewrite Helems at 1. rewrite list_lookup_middle by done.
  rewrite <- (IH (pre ++ [x])).
  - rewrite length_app. simpl. by rewrite Nat.add_1_r.
  - by rewrite <- (assoc_L (++)).
Qed.

Lemma forPairs_outer (fn : Node -> Node -> S -> S) (elems pre rest : list Node) (s : S) :
  elems = pre ++ rest ->
  foldl (fun s i =>
    foldl (fun s j =>
      match elems !! i, elems !! j with
      | Some a, Some b => fn a b s
      | _, _ => s
      end) s (seq (i + 1) (length elems - (i + 1))))
    s (seq (length pre) (length rest))
  = foldl (fun s p => fn p.1 p.2 s) s (pairsOf rest).
Proof.
  revert pre s. induction rest as [|x rest IH]; intros pre s Helems; [done|].
  simpl. rewrite foldl_app, foldl_fmap. simpl.
  assert (Hx : elems !! length pre = Some x).
  { rewrite Helems. by apply list_lookup_middle. }
  assert (Hlen : (length elems - (length pre + 1))%nat = length rest).
  { rewrite Helems, length_app. simpl. lia. }
  assert (Helems' : elems = (pre ++ [x]) ++ rest).
  { by rewrite <- (assoc_L (++)). }
  rewrite Hx, Hlen.
  pose proof (forPairs_inner (fn x) elems (pre ++ [x]) rest s Helems') as Hin.
  rewrite length_app in Hin. simpl in Hin. rewrite Hin.
  rewrite <- (IH (pre ++ [x])) by done.
  rewrite length_app. simpl. by rewrite Nat.add_1_r.
Qed.

(** The two index loops of [forPairs] call [fn] on the pairs of
    [pairsOf], in that order. *)
Lemma forPairs_pairsOf (elems : list Node) (fn : Node -> Node -> S -> S) (s : S) :
  forPairs elems fn s = foldl (fun s p => fn p.1 p.2 s) s (pairsOf elems).
Proof. exact (forPairs_outer fn elems [] elems s eq_refl). Qed.

End ForPairs.

Lemma foldl_snoc_all {A B : Type} (l acc : list (A * B)) :
  foldl (fun calls p => calls ++ [(p.1, p.2)]) acc l = acc ++ l.
Proof.
  revert acc. induction l as [|[a b] l IH]; intros acc; simpl.
  - by rewrite (right_id_L [] (++)).
  - rewrite IH. by rewrite <- (assoc_L (++)).
Qed.

Lemma pairCalls_pairsOf (elems : list Node) : pairCalls elems = pairsOf elems.
Proof.
  unfold pairCalls. rewrite forPairs_pairsOf. apply foldl_snoc_all.
Qed.

(** Whatever the callback, [forPairs] runs it over [pairCalls]. *)
Lemma forPairs_calls {S : Type} (elems : list Node) (fn : Node -> Node -> S -> S) (s : S) :
  forPairs elems fn s = foldl (fun s p => fn p.1 p.2 s) s (pairCalls elems).
Proof. rewrite pairCalls_pairsOf. apply forPairs_pairsOf. Qed.

(** *** The pairs of a list *)

Lemma length_pairsOf {A : Type} (l : list A) :
  (2 * length (pairsOf l) = length l * (length l - 1))%nat.
Proof.
  induction l as [|x l IH]; [done|].
  simpl. rewrite length_app, length_fmap.
  destruct l as [|y l]; [done|]. simpl in *. lia.
Qed.

Lemma elem_of_pairsOf {A : Type} (l : list A) (a b : A) :
  (a, b) ∈ pairsOf l ↔
  ∃ i j : nat, (i < j)%nat ∧ l !! i = Some a ∧ l !! j = Some b.
Proof.
  induction l as [|x l IH]; simpl.
  - split; [by intros ?%elem_of_nil|]. by intros (i & j & _ & ? & _).
  - rewrite elem_of_app, list_elem_of_fmap, IH. split.
    + intros [(y & [= -> ->] & Hy)|(i & j & Hij & Hi & Hj)].
      * apply list_elem_of_lookup in Hy as [j Hj].
        exists 0%nat, (Datatypes.S j). split; [lia|done].
      * exists (Datatypes.S i), (Datatypes.S j). split; [lia|done].
    + intros (i & j & Hij & Hi & Hj).
      destruct j as [|j]; [lia|]. simpl in Hj.
      destruct i as [|i]; simpl in Hi.
      * left. exists b. split; [congruence|].
        apply list_elem_of_lookup. by exists j.
      * right. exists i, j. split; [lia|done].
Qed.

Lemma NoDup_pairsOf {A : Type} (l : list A) : NoDup l -> NoDup (pairsOf l).
Proof.
  induction 1 as [|x l Hx Hl IH]; simpl; [constructor|].
  apply list.NoDup_app. split; [|split; [|done]].
  - apply NoDup_fmap_2; [|done]. by intros y z [= ->].
  - intros [a b] (y & [= -> ->] & Hy)%list_elem_of_fmap
      (i & j & _ & Hi & _)%elem_of_pairsOf.
    apply Hx. apply list_elem_of_lookup. by exists i.
Qed.

(** In a list without repetition no pair is visited in both orders, and
    no element is paired with itself. *)
Lemma pairsOf_one_way {A : Type} (l : list A) (a b : A) :
  NoDup l -> (a, b) ∈ pairsOf l -> a ≠ b ∧ (b, a) ∉ pairsOf l.
Proof.
  intros Hl (i & j & Hij & Hi & Hj)%elem_of_pairsOf. split.
  - intros ->. pose proof (NoDup_lookup l i j b Hl Hi Hj). lia.
  - intros (i' & j' & Hij' & Hi' & Hj')%elem_of_pairsOf.
    pose proof (NoDup_lookup l i j' a Hl Hi Hj').
    pose proof (NoDup_lookup l j i' b Hl Hj Hi'). lia.
Qed.

Lemma bothWays_cons {A : Type} (x : A) (l : list A) :
  bothWays (pairsOf (x :: l))
  ≡ₚ (pair x <$> l) ++ ((fun y => (y, x)) <$> l) ++ bothWays (pairsOf l).
Proof.
  unfold bothWays. simpl. rewrite fmap_app, <- list_fmap_compose.
  change (prod_swap ∘ pair x) with (fun y : A => (y, x)).
  solve_Permutation.
Qed.

(** Read as unordered pairs, the pairs of a list do not depend on the
    order of the list. *)
Lemma bothWays_pairsOf_Permutation {A : Type} (l l' : list A) :
  l ≡ₚ l' -> bothWays (pairsOf l) ≡ₚ bothWays (pairsOf l').
Proof.
  induction 1 as [|x l l' Hl IH|x y l|l l' l'' _ IH1 _ IH2].
  - done.
  - rewrite !bothWays_cons. by rewrite IH, Hl.
  - rewrite !bothWays_cons. simpl. solve_Permutation.
  - by etrans.
Qed.

(** C2. For a list of [n] nodes [forPairs] calls its callback
    [n * (n - 1) / 2] times, on the pairs of a node with a later node of the
    list and on nothing else; when the nodes of the list are distinct no
    pair is called twice or in both orders or with the same node on both
    sides; and the unordered pairs called are the same for every order
    of the list. The calls do not depend on the callback. *)
Theorem forPairs_each_pair_once (elems : list Node) :
  length (pairCalls elems) = (length elems * (length elems - 1) / 2)%nat
  ∧ (∀ a b : Node, (a, b) ∈ pairCalls elems ↔
       ∃ i j : nat, (i < j)%nat ∧ elems !! i = Some a ∧ elems !! j = Some b)
  ∧ (NoDup elems ->
       NoDup (pairCalls elems)
       ∧ ∀ a b : Node, (a, b) ∈ pairCalls elems ->
           a ≠ b ∧ (b, a) ∉ pairCalls elems)
  ∧ (∀ elems' : list Node, elems ≡ₚ elems' ->
       bothWays (pairCalls elems) ≡ₚ bothWays (pairCalls elems'))
  ∧ (∀ (S : Type) (fn : Node -> Node -> S -> S) (s : S),
       forPairs elems fn s = foldl (fun s p => fn p.1 p.2 s) s (pairCalls elems)).
Proof.
  split; [|split; [|split; [|split]]].
  - rewrite pairCalls_pairsOf.
    pose proof (length_pairsOf elems) as Hlen.
    rewrite <- Hlen, Nat.mul_comm. symmetry. apply Nat.div_mul. lia.
  - intros a b. rewrite pairCalls_pairsOf. apply elem_of_pairsOf.
  - intros Hnd. rewrite pairCalls_pairsOf. split.
    + by apply NoDup_pairsOf.
    + intros a b. by apply pairsOf_one_way.
  - intros elems' Hperm. rewrite !pairCalls_pairsOf.
    by apply bothWays_pairsOf_Permutation.
  - intros S fn s. apply forPairs_calls.
Qed.

(** Four nodes give six calls, and the reversed list the same pairs. *)
Lemma forPairs_each_pair_once_witness :
  length (pairCalls [3; 1; 2; 5]%nat) = 6%nat
  ∧ NoDup (pairCalls [3; 1; 2; 5]%nat)
  ∧ bothWays (pairCalls [3; 1; 2; 5]%nat) ≡ₚ bothWays (pairCalls [5; 2; 1; 3]%nat).
Proof.
  pose proof (forPairs_each_pair_once [3; 1; 2; 5]%nat) as (Hlen & _ & Hnd & Hperm & _).
  split; [exact Hlen|]. split.
  - apply Hnd. apply (bool_decide_unpack _). vm_compute. exact I.
  - apply Hperm. apply (bool_decide_unpack _). vm_compute. exact I.
Defined.

(** ** The polling loop *)

Section Polling.
Context {N : Type} `{NodeAPI N}.
Local Abbreviation objects := (Node -> N).

Lemma pollNodes_snoc (c : cycle) (nodes : list Node) (node : Node) :
  pollNodes c (nodes ++ [node]) = pollNode (pollNodes c nodes) node.
Proof. unfold pollNodes. by rewrite foldl_app. Qed.

(** One poll, by its outcome. *)
Lemma pollNode_failed (c : cycle) (node : Node) :
  pollOk (store c) node = false ->
  store (pollNode c node) = <[node := polledObject (store c) node]> (store c)
  ∧ activeNodes (pollNode c node) = activeNodes c
  ∧ heads (pollNode c node) = heads c
  ∧ splitSize (pollNode c node) = splitSize c.
Proof.
  unfold pollOk, polledObject, pollNode. intros Hok. unfold pollOk. rewrite Hok.
  apply bool_decide_eq_false_1 in Hok.
  destruct (UpdateLatest (store c node)) as [n1 [e|]]; simpl in *; done.
Qed.

Lemma pollNode_succeeded (c : cycle) (node : Node) :
  pollOk (store c) node = true ->
  store (pollNode c node) = <[node := polledObject (store c) node]> (store c)
  ∧ activeNodes (pollNode c node) = activeNodes c ++ [node]
  ∧ heads (pollNode c node)
    = <[HeadNum (polledObject (store c) node) := true]> (heads c)
  ∧ splitSize (pollNode c node) = splitSize c.
Proof.
  unfold pollOk, polledObject, pollNode. intros Hok. unfold pollOk. rewrite Hok.
  apply bool_decide_eq_true_1 in Hok.
  destruct (UpdateLatest (store c node)) as [n1 [e|]]; simpl in *; done.
Qed.

(** The polling loop over distinct nodes: every node of the list is
    polled once, from the object it had before the loop; the active nodes
    are those whose poll succeeded; [heads] holds the head numbers of the
    active nodes and nothing else. *)
Lemma pollNodes_spec (s : objects) (nodes : list Node) :
  NoDup nodes ->
  let c := pollNodes (freshCycle s) nodes in
  (∀ r, store c r = if bool_decide (r ∈ nodes) then polledObject s r else s r)
  ∧ activeNodes c = filter (fun r => pollOk s r) nodes
  ∧ (∀ h v, heads c !! h = Some v ↔
       v = true ∧ ∃ r, r ∈ activeNodes c ∧ HeadNum (store c r) = h)
  ∧ splitSize c = 0.
Proof.
  induction nodes as [|node nodes IH] using rev_ind; intros Hnd c.
  - subst c. simpl. split; [done|]. split; [done|]. split; [|done].
    intros h v. rewrite lookup_empty. split; [done|].
    by intros (_ & r & ?%elem_of_nil & _).
  - apply list.NoDup_app in Hnd as (Hnd & Hnew & _).
    assert (Hnotin : node ∉ nodes).
    { intros Hin. apply (Hnew node Hin). by apply list_elem_of_singleton. }
    specialize (IH Hnd). simpl in IH.
    destruct IH as (Hstore & Hactive & Hheads & Hsize).
    subst c. rewrite pollNodes_snoc.
    set (c1 := pollNodes (freshCycle s) nodes) in *.
    assert (Hsame : pollOk (store c1) node = pollOk s node
                    ∧ polledObject (store c1) node = polledObject s node).
    { assert (Hs : store c1 node = s node).
      { rewrite Hstore. by rewrite bool_decide_eq_false_2. }
      unfold polledObject, pollOk. by rewrite Hs. }
    destruct Hsame as [Hok Hobj].
    assert (Hst : ∀ r, <[node := polledObject s node]> (store c1) r
                       = if bool_decide (r ∈ nodes ++ [node])
                         then polledObject s r else s r).
    { intros r. destruct (decide (r = node)) as [->|Hne].
      - rewrite fn_lookup_insert. rewrite bool_decide_eq_true_2; [done|].
        apply elem_of_app. right. by apply list_elem_of_singleton.
      - rewrite fn_lookup_insert_ne by done. rewrite Hstore.
        rewrite (bool_decide_ext (r ∈ nodes) (r ∈ nodes ++ [node])); [done|].
        rewrite elem_of_app, list_elem_of_singleton.
        split; [by left|]. by intros [?|?]. }
    destruct (pollOk s node) eqn:Hpoll.
    + destruct (pollNode_succeeded c1 node) as (E1 & E2 & E3 & E4);
        [by rewrite Hok|].
      rewrite Hobj in E1, E3.
      split; [|split; [|split]].
      * intros r. rewrite E1. apply Hst.
      * rewrite E2, Hactive, list.filter_app. f_equal.
        rewrite filter_cons_True by (by rewrite Hpoll). done.
      * intros h v. rewrite E3, E2, E1.
        assert (Hold : ∀ r, r ∈ activeNodes c1 ->
                  <[node := polledObject s node]> (store c1) r = store c1 r).
        { intros r Hr. apply fn_lookup_insert_ne. intros ->.
          rewrite Hactive in Hr. apply list_elem_of_filter in Hr as [_ Hr].
          done. }
        destruct (decide (h = HeadNum (polledObject s node))) as [->|Hne].
        -- rewrite lookup_insert_eq. split.
           ++ intros [= <-]. split; [done|]. exists node. split.
              ** apply elem_of_app. right. by apply list_elem_of_singleton.
              ** by rewrite fn_lookup_insert.
           ++ by intros [-> _].
        -- rewrite lookup_insert_ne by done. rewrite Hheads.
           split; intros [-> (r & Hr & Hh)]; (split; [done|]).
           ++ exists r. split; [apply elem_of_app; by left|].
              by rewrite Hold.
           ++ apply elem_of_app in Hr as [Hr|Hr%list_elem_of_singleton].
              ** exists r. split; [done|]. by rewrite <- Hold.
              ** subst r. rewrite fn_lookup_insert in Hh. congruence.
      * by rewrite E4.
    + destruct (pollNode_failed c1 node) as (E1 & E2 & E3 & E4);
        [by rewrite Hok|].
      rewrite Hobj in E1.
      split; [|split; [|split]].
      * intros r. rewrite E1. apply Hst.
      * rewrite E2, Hactive, list.filter_app.
        rewrite (filter_cons_False _ node) by (rewrite Hpoll; intros []).
        by rewrite filter_nil, (right_id_L [] (++)).
      * intros h v. rewrite E3, E2, E1, Hheads.
        assert (Hold : ∀ r, r ∈ activeNodes c1 ->
                  <[node := polledObject s node]> (store c1) r = store c1 r).
        { intros r Hr. apply fn_lookup_insert_ne. intros ->.
          rewrite Hactive in Hr. apply list_elem_of_filter in Hr as [_ Hr].
          done. }
        split; intros [-> (r & Hr & Hh)]; (split; [done|]); exists r;
          (split; [done|]).
        -- by rewrite Hold.
        -- by rewrite <- Hold.
      * by rewrite E4.
Qed.

End Polling.

(** ** The pairwise phase *)

Lemma foldl_filter_neutral {A B : Type} (f : B -> A -> B) (P : A -> Prop)
    `{!∀ x, Decision (P x)} (l : list A) (b : B) :
  (∀ b x, ¬ P x -> f b x = b) ->
  foldl f b (filter P l) = foldl f b l.
Proof.
  intros Hskip. revert b. induction l as [|x l IH]; intros b; [done|].
  destruct (decide (P x)) as [Hx|Hx].
  - rewrite filter_cons_True by done. simpl. apply IH.
  - rewrite filter_cons_False by done. simpl. rewrite Hskip by done. apply IH.
Qed.

Lemma maxLength_nonneg (l : list Z) : 0 <= maxLength l.
Proof. induction l as [|x l IH]; simpl; lia. Qed.

(** [maxLength] is the largest element, and 0 for the empty list. *)
Lemma maxLength_max (l : list Z) :
  Forall (fun x => 0 <= x) l ->
  Forall (fun x => x <= maxLength l) l
  ∧ (l = [] ∧ maxLength l = 0 ∨ maxLength l ∈ l).
Proof.
  induction 1 as [|x l Hx Hl [IHle IHin]]; simpl.
  - split; [constructor|by left].
  - split.
    + constructor; [lia|]. eapply list.Forall_impl; [exact IHle|].
      simpl. intros y Hy. lia.
    + right. destruct (Z.max_spec x (maxLength l)) as [[Hlt ->]|[_ ->]].
      * destruct IHin as [[-> _]|Hin].
        -- simpl in Hlt. lia.
        -- by apply elem_of_cons; right.
      * apply elem_of_cons. by left.
Qed.

Section Comparing.
Context {N : Type} `{NodeAPI N}.
Local Abbreviation objects := (Node -> N).

Lemma diverging_missingBlock (s : objects) (a b : Node) :
  missingBlock s a b = true -> diverging s a b = false.
Proof.
  unfold missingBlock, diverging.
  destruct (BlockAt (s a) (commonHorizon s a b) false),
    (BlockAt (s b) (commonHorizon s a b) false); done.
Qed.

Lemma missingBlock_spec (s : objects) (a b : Node) :
  missingBlock s a b = true ↔
  BlockAt (s a) (commonHorizon s a b) false = None
  ∨ BlockAt (s b) (commonHorizon s a b) false = None.
Proof.
  unfold missingBlock.
  destruct (BlockAt (s a) (commonHorizon s a b) false),
    (BlockAt (s b) (commonHorizon s a b) false);
    split; try done; try (by intros [|]); auto.
Qed.

(** The closure reads the node objects and changes [heads], [splitSize]
    and the log only. *)
Lemma comparePair_effect (a b : Node) (c : cycle) :
  store (comparePair a b c) = store c
  ∧ activeNodes (comparePair a b c) = activeNodes c
  ∧ heads (comparePair a b c) = pairHeads (store c) a b (heads c)
  ∧ splitSize (comparePair a b c) = pairSize (store c) a b (splitSize c).
Proof.
  unfold comparePair, pairHeads, pairSize, diverging, splitLength, splitHeight.
  destruct (BlockAt (store c a) (commonHorizon (store c) a b) false) as [ha|];
    [|done].
  destruct (BlockAt (store c b) (commonHorizon (store c) a b) false) as [hb|];
    [|done].
  destruct (decide (hash ha = hash hb)) as [Heq|Hne].
  - rewrite (bool_decide_eq_true_2 _ Heq).
    rewrite bool_decide_eq_false_2 by (intros Hn; by apply Hn). done.
  - rewrite (bool_decide_eq_false_2 _ Hne).
    rewrite (bool_decide_eq_true_2 _ Hne). done.
Qed.

(** The pairwise phase, folded over the pairs it is called on. *)
Lemma comparePairs_effect (ps : list (Node * Node)) (c : cycle) :
  let c' := foldl (fun c p => comparePair p.1 p.2 c) c ps in
  store c' = store c
  ∧ activeNodes c' = activeNodes c
  ∧ heads c' = foldl (fun m p => pairHeads (store c) p.1 p.2 m) (heads c) ps
  ∧ splitSize c'
    = foldl (fun z p => pairSize (store c) p.1 p.2 z) (splitSize c) ps.
Proof.
  revert c. induction ps as [|[a b] ps IH]; intros c; [done|].
  simpl. destruct (comparePair_effect a b c) as (E1 & E2 & E3 & E4).
  destruct (IH (comparePair a b c)) as (I1 & I2 & I3 & I4).
  simpl in *. rewrite I1, I2, I3, I4, E1, E2, E3, E4. done.
Qed.

Lemma splitHeight_range (s : objects) (a b : Node) :
  0 <= splitHeight s a b < 2 ^ 63.
Proof. unfold splitHeight, findSplit. apply Search_int, int_of_range. Qed.

Lemma commonHorizon_uint64 (s : objects) (a b : Node) :
  is_uint64 (commonHorizon s a b).
Proof.
  unfold commonHorizon. case_bool_decide; apply HeadNum_uint64.
Qed.

(** The common horizon is the lower of the two head numbers. *)
Lemma commonHorizon_min (s : objects) (a b : Node) :
  commonHorizon s a b = Z.min (HeadNum (s a)) (HeadNum (s b)).
Proof. unfold commonHorizon. case_bool_decide; lia. Qed.

(** Below [2^63] nothing wraps: the split lies at or below the horizon,
    and the length is their difference. *)
Lemma splitLength_exact (s : objects) (a b : Node) :
  commonHorizon s a b < 2 ^ 63 ->
  0 <= splitHeight s a b <= commonHorizon s a b
  ∧ splitLength s a b = commonHorizon s a b - splitHeight s a b.
Proof.
  intros Hlow. pose proof (commonHorizon_uint64 s a b) as [Hpos _].
  unfold splitLength, splitHeight, findSplit.
  rewrite int_of_low by lia.
  match goal with |- context [Sort.Search ?n ?f] =>
    pose proof (Search_bounds f n ltac:(lia)) as Hb;
    set (k := Sort.Search n f) in * end.
  split; [lia|]. by rewrite !(int_of_low (_ - _)) by lia.
Qed.

Lemma pairHeads_mono (s : objects) (a b : Node) (m : gmap Z bool) (h : Z) :
  m !! h = Some true -> pairHeads s a b m !! h = Some true.
Proof.
  intros Hm. unfold pairHeads.
  destruct (diverging s a b); [|done].
  assert (Hone : ∀ k (m' : gmap Z bool),
            m' !! h = Some true -> <[k := true]> m' !! h = Some true).
  { intros k m' Hm'. destruct (decide (k = h)) as [->|Hne].
    - by rewrite lookup_insert_eq.
    - by rewrite lookup_insert_ne. }
  case_bool_decide; auto.
Qed.

Lemma pairHeads_split (s : objects) (a b : Node) (m : gmap Z bool) :
  diverging s a b = true ->
  pairHeads s a b m !! splitHeight s a b = Some true
  ∧ (0 < splitHeight s a b ->
     pairHeads s a b m !! (splitHeight s a b - 1) = Some true).
Proof.
  intros Hdiv. unfold pairHeads. rewrite Hdiv.
  pose proof (splitHeight_range s a b) as Hr.
  rewrite (uint64_of_id (splitHeight s a b)) by (unfold is_uint64; lia).
  case_bool_decide as Hpos.
  - rewrite int_of_low by lia.
    rewrite (uint64_of_id (_ - 1)) by (unfold is_uint64; lia).
    split.
    + rewrite lookup_insert_ne by lia. by rewrite lookup_insert_eq.
    + intros _. by rewrite lookup_insert_eq.
  - split; [by rewrite lookup_insert_eq|]. intros; lia.
Qed.

Lemma pairHeads_uint64 (s : objects) (a b : Node) (m : gmap Z bool) :
  (∀ h, is_Some (m !! h) -> is_uint64 h) ->
  ∀ h, is_Some (pairHeads s a b m !! h) -> is_uint64 h.
Proof.
  intros Hm h. unfold pairHeads.
  destruct (diverging s a b); [|by apply Hm].
  assert (Hone : ∀ k (m' : gmap Z bool),
            (∀ h, is_Some (m' !! h) -> is_uint64 h) ->
            ∀ h, is_Some (<[uint64_of k := true]> m' !! h) -> is_uint64 h).
  { intros k m' Hm' h'. destruct (decide (uint64_of k = h')) as [<-|Hne].
    - intros _. apply uint64_of_range.
    - rewrite lookup_insert_ne by done. apply Hm'. }
  case_bool_decide; eauto.
Qed.

(** [splitSize] after the pairs is the largest of the value before and
    the lengths of the diverging pairs. *)
Lemma pairSize_fold (s : objects) (ps : list (Node * Node)) (z : Z) :
  foldl (fun z p => pairSize s p.1 p.2 z) z ps
  = foldr Z.max z
      ((fun p => splitLength s p.1 p.2)
         <$> filter (fun p => diverging s p.1 p.2) ps).
Proof.
  assert (Hmax : ∀ (l : list Z) x y,
            foldr Z.max (Z.max x y) l = Z.max y (foldr Z.max x l)).
  { induction l as [|r l IHl]; intros x y; simpl; [lia|]. rewrite IHl. lia. }
  revert z. induction ps as [|[a b] ps IH]; intros z; simpl; [done|].
  rewrite IH. unfold pairSize. simpl.
  destruct (diverging s a b) eqn:Hdiv.
  - rewrite filter_cons_True by (simpl; by rewrite Hdiv). simpl.
    rewrite <- Hmax. f_equal. case_bool_decide; lia.
  - rewrite filter_cons_False by (simpl; rewrite Hdiv; intros []). done.
Qed.

End Comparing.

(** ** The sorted list of heights *)

Lemma elem_of_rangeKeys (m : gmap Z bool) (h : Z) :
  h ∈ rangeKeys m ↔ is_Some (m !! h).
Proof.
  unfold rangeKeys. rewrite list_elem_of_fmap. split.
  - intros ([k v] & -> & Hkv). apply elem_of_map_to_list in Hkv. by exists v.
  - intros [v Hv]. exists (h, v). split; [done|]. by apply elem_of_map_to_list.
Qed.

Lemma NoDup_rangeKeys (m : gmap Z bool) : NoDup (rangeKeys m).
Proof. apply NoDup_fst_map_to_list. Qed.

(** The sorted list is the same for every order in which the range over
    the map hands out the keys. *)
Lemma SortReverseInts_order (l l' : list Z) :
  l ≡ₚ l' -> Sort.SortReverseInts l = Sort.SortReverseInts l'.
Proof.
  intros Hperm. unfold Sort.SortReverseInts.
  apply (Sorted_unique Sort.reverse_le).
  - apply Sorted_merge_sort; apply _.
  - apply Sorted_merge_sort; apply _.
  - by rewrite !merge_sort_Permutation.
Qed.

Lemma StronglySorted_strict (l : list Z) :
  StronglySorted Sort.reverse_le l -> NoDup l ->
  StronglySorted (fun x y => y < x) l.
Proof.
  induction 1 as [|x l Hl IH Hx]; intros Hnd; [constructor|].
  apply list.NoDup_cons in Hnd as [Hnotin Hnd].
  constructor; [by apply IH|].
  apply list.Forall_forall. intros y Hy.
  assert (Sort.reverse_le x y) as Hle.
  { rewrite list.Forall_forall in Hx. by apply Hx. }
  unfold Sort.reverse_le in Hle.
  assert (y ≠ x) by (by intros ->). lia.
Qed.

(** A list of distinct integers comes out of the sort strictly
    descending, with the elements it went in with. *)
Lemma SortReverseInts_strict (l : list Z) :
  NoDup l ->
  StronglySorted (fun x y => y < x) (Sort.SortReverseInts l)
  ∧ NoDup (Sort.SortReverseInts l)
  ∧ ∀ z, z ∈ Sort.SortReverseInts l ↔ z ∈ l.
Proof.
  intros Hnd. unfold Sort.SortReverseInts.
  assert (Hnd' : NoDup (merge_sort Sort.reverse_le l)).
  { by rewrite merge_sort_Permutation. }
  split; [|split; [done|]].
  - apply StronglySorted_strict; [|done].
    apply StronglySorted_merge_sort; apply _.
  - intros z. by rewrite merge_sort_Permutation.
Qed.

(** ** The cycle *)

Section Cycle.
Context {N : Type} `{NodeAPI N}.
Local Abbreviation objects := (Node -> N).

(** One poll touches neither [splitSize] nor the keys' range. *)
Lemma pollNode_frame (c : cycle) (node : Node) :
  splitSize (pollNode c node) = splitSize c
  ∧ ((∀ h, is_Some (heads c !! h) -> is_uint64 h) ->
     ∀ h, is_Some (heads (pollNode c node) !! h) -> is_uint64 h).
Proof.
  destruct (pollOk (store c) node) eqn:Hok.
  - destruct (pollNode_succeeded c node Hok) as (_ & _ & -> & ->).
    split; [done|]. intros Hc h.
    destruct (decide (HeadNum (polledObject (store c) node) = h)) as [<-|Hne].
    + intros _. apply HeadNum_uint64.
    + rewrite lookup_insert_ne by done. apply Hc.
  - destruct (pollNode_failed c node Hok) as (_ & _ & -> & ->). done.
Qed.

Lemma pollNodes_frame (c : cycle) (nodes : list Node) :
  splitSize (pollNodes c nodes) = splitSize c
  ∧ ((∀ h, is_Some (heads c !! h) -> is_uint64 h) ->
     ∀ h, is_Some (heads (pollNodes c nodes) !! h) -> is_uint64 h).
Proof.
  revert c. induction nodes as [|node nodes IH]; intros c; [done|].
  simpl. destruct (IH (pollNode c node)) as [-> Hk].
  destruct (pollNode_frame c node) as [-> Hk1]. auto.
Qed.

Lemma pairHeads_fold_mono (s : objects) (ps : list (Node * Node))
    (m : gmap Z bool) (h : Z) :
  m !! h = Some true ->
  foldl (fun m p => pairHeads s p.1 p.2 m) m ps !! h = Some true.
Proof.
  revert m. induction ps as [|[a b] ps IH]; intros m Hm; [done|].
  simpl. by apply IH, pairHeads_mono.
Qed.

Lemma pairHeads_fold_split (s : objects) (ps : list (Node * Node))
    (m : gmap Z bool) (a b : Node) :
  (a, b) ∈ ps -> diverging s a b = true ->
  let m' := foldl (fun m p => pairHeads s p.1 p.2 m) m ps in
  m' !! splitHeight s a b = Some true
  ∧ (0 < splitHeight s a b -> m' !! (splitHeight s a b - 1) = Some true).
Proof.
  intros Hin Hdiv. revert m.
  induction ps as [|[a' b'] ps IH]; intros m; [by apply elem_of_nil in Hin|].
  apply elem_of_cons in Hin as [[= <- <-]|Hin]; simpl.
  - destruct (pairHeads_split s a b m Hdiv) as [H1 H2].
    split; [|intros Hpos]; apply pairHeads_fold_mono; auto.
  - by apply IH.
Qed.

Lemma pairHeads_fold_uint64 (s : objects) (ps : list (Node * Node))
    (m : gmap Z bool) :
  (∀ h, is_Some (m !! h) -> is_uint64 h) ->
  ∀ h, is_Some (foldl (fun m p => pairHeads s p.1 p.2 m) m ps !! h) ->
       is_uint64 h.
Proof.
  revert m. induction ps as [|[a b] ps IH]; intros m Hm; [done|].
  simpl. by apply IH, pairHeads_uint64.
Qed.

(** The cycle in terms of its two phases. *)
Lemma doChecks_phases (s : objects) (nodes : list Node) :
  let c1 := pollNodes (freshCycle s) nodes in
  let r := doChecks s nodes in
  let ps := pairCalls (activeNodes c1) in
  store (final r) = store c1
  ∧ activeNodes (final r) = activeNodes c1
  ∧ heads (final r)
    = foldl (fun m p => pairHeads (store c1) p.1 p.2 m) (heads c1) ps
  ∧ gauge r
    = int_of (maxLength ((fun p => splitLength (store c1) p.1 p.2)
                <$> filter (fun p => diverging (store c1) p.1 p.2) ps))
  ∧ headList r = Sort.SortReverseInts (int_of <$> rangeKeys (heads (final r))).
Proof.
  intros c1 r ps. subst r. unfold doChecks. simpl. fold c1.
  rewrite forPairs_calls. fold ps.
  destruct (comparePairs_effect ps c1) as (E1 & E2 & E3 & E4).
  simpl in *. rewrite E1, E2, E3, E4.
  repeat split; try done.
  rewrite pairSize_fold.
  destruct (pollNodes_frame (freshCycle s) nodes) as [Hz _].
  fold c1 in Hz. rewrite Hz. done.
Qed.

(** Every key of [heads] is a [uint64]. *)
Lemma doChecks_heads_uint64 (s : objects) (nodes : list Node) (h : Z) :
  is_Some (heads (final (doChecks s nodes)) !! h) -> is_uint64 h.
Proof.
  destruct (doChecks_phases s nodes) as (_ & _ & -> & _).
  apply pairHeads_fold_uint64.
  apply (pollNodes_frame (freshCycle s) nodes).
  intros k. simpl. rewrite lookup_empty. by intros [? ?].
Qed.

(** The list handed to the report is strictly descending, and holds the
    keys of [heads] as [int]s. *)
Lemma headList_strict (s : objects) (nodes : list Node) :
  let r := doChecks s nodes in
  StronglySorted (fun x y => y < x) (headList r)
  ∧ NoDup (headList r)
  ∧ ∀ z, z ∈ headList r ↔
         ∃ h, is_Some (heads (final r) !! h) ∧ z = int_of h.
Proof.
  intros r. subst r.
  destruct (doChecks_phases s nodes) as (_ & _ & _ & _ & ->).
  set (m := heads (final (doChecks s nodes))).
  assert (Hnd : NoDup (int_of <$> rangeKeys m)).
  { apply NoDup_fmap_2_strong; [|apply NoDup_rangeKeys].
    intros x y Hx%elem_of_rangeKeys Hy%elem_of_rangeKeys.
    apply int_of_inj; by eapply doChecks_heads_uint64. }
  destruct (SortReverseInts_strict _ Hnd) as (Hs & Hn & Hel).
  split; [done|]. split; [done|].
  intros z. rewrite Hel, list_elem_of_fmap.
  split; intros (h & Hz & Hh); exists h; split; try done;
    by apply elem_of_rangeKeys.
Qed.

End Cycle.

(** ** Properties of the cycle *)

Section CycleProperties.
Context {N : Type} `{NodeAPI N}.
Local Abbreviation objects := (Node -> N).

(** One poll by its outcome, from any state of the cycle. *)
Lemma pollNode_outcome (c : cycle) (node : Node) :
  match snd (UpdateLatest (store c node)) with
  | Some _ =>
      Status (store (pollNode c node) node) = NodeStatusUnreachable
      ∧ activeNodes (pollNode c node) = activeNodes c
      ∧ heads (pollNode c node) = heads c
  | None =>
      Status (store (pollNode c node) node) = NodeStatusOK
      ∧ activeNodes (pollNode c node) = activeNodes c ++ [node]
      ∧ heads (pollNode c node)
        = <[HeadNum (store (pollNode c node) node) := true]> (heads c)
  end.
Proof.
  assert (Hok : pollOk (store c) node
                = bool_decide (snd (UpdateLatest (store c node)) = None))
    by done.
  destruct (snd (UpdateLatest (store c node))) as [e|] eqn:Hres.
  - rewrite bool_decide_eq_false_2 in Hok by done.
    destruct (pollNode_failed c node Hok) as (-> & -> & -> & _).
    rewrite fn_lookup_insert. unfold polledObject.
    by rewrite Hok, Status_SetStatus.
  - rewrite bool_decide_eq_true_2 in Hok by done.
    destruct (pollNode_succeeded c node Hok) as (-> & -> & -> & _).
    rewrite fn_lookup_insert. unfold polledObject.
    by rewrite Hok, Status_SetStatus.
Qed.

(** C6. The outcome of a node's poll fixes its status and its place in the
    cycle, whatever the object was before. One pass of the polling loop,
    from any state: when [UpdateLatest] fails the node is
    [NodeStatusUnreachable] and neither the active nodes nor [heads]
    change; when it succeeds the node is [NodeStatusOK], is appended to the
    active nodes, and its head number is put into [heads]. A whole cycle
    over distinct nodes: a node whose poll fails ends the cycle
    [NodeStatusUnreachable], is not among the active nodes and is in no
    pair that is compared; a node whose poll succeeds ends it
    [NodeStatusOK], is among the active nodes, and its head number is in
    [heads]; and the polling loop puts nothing into [heads] but head
    numbers of active nodes. *)
Theorem poll_outcome_decides :
  (∀ (c : cycle) (node : Node),
     match snd (UpdateLatest (store c node)) with
     | Some _ =>
         Status (store (pollNode c node) node) = NodeStatusUnreachable
         ∧ activeNodes (pollNode c node) = activeNodes c
         ∧ heads (pollNode c node) = heads c
     | None =>
         Status (store (pollNode c node) node) = NodeStatusOK
         ∧ activeNodes (pollNode c node) = activeNodes c ++ [node]
         ∧ heads (pollNode c node)
           = <[HeadNum (store (pollNode c node) node) := true]> (heads c)
     end)
  ∧ (∀ (s : objects) (nodes : list Node) (node : Node),
       NoDup nodes -> node ∈ nodes ->
       let c := final (doChecks s nodes) in
       (match snd (UpdateLatest (s node)) with
        | Some _ =>
            Status (store c node) = NodeStatusUnreachable
            ∧ (node ∉ activeNodes c)
            ∧ (∀ a b, (a, b) ∈ pairCalls (activeNodes c) ->
                 a ≠ node ∧ b ≠ node)
        | None =>
            Status (store c node) = NodeStatusOK
            ∧ node ∈ activeNodes c
            ∧ heads c !! HeadNum (store c node) = Some true
        end)
       ∧ (∀ h v, heads (pollNodes (freshCycle s) nodes) !! h = Some v ->
            v = true ∧ ∃ r, r ∈ activeNodes c ∧ HeadNum (store c r) = h)).
Proof.
  split; [exact pollNode_outcome|].
  intros s nodes node Hnd Hin c. subst c.
  destruct (pollNodes_spec s nodes Hnd) as (Hstore & Hactive & Hheads & _).
  destruct (doChecks_phases s nodes) as (E1 & E2 & E3 & _).
  simpl in *. rewrite E1, E2, E3.
  set (c1 := pollNodes (freshCycle s) nodes) in *.
  assert (Hobj : store c1 node = polledObject s node).
  { rewrite Hstore. by rewrite bool_decide_eq_true_2. }
  split; [|by intros h v ?%Hheads].
  rewrite Hobj. unfold polledObject at 1 2. rewrite !Status_SetStatus.
  assert (Hok : pollOk s node = bool_decide (snd (UpdateLatest (s node)) = None))
    by done.
  destruct (snd (UpdateLatest (s node))) as [e|] eqn:Hres.
  - rewrite bool_decide_eq_false_2 in Hok by done. rewrite Hok.
    assert (Hout : node ∉ activeNodes c1).
    { rewrite Hactive. intros [Hp _]%list_elem_of_filter.
      by rewrite Hok in Hp. }
    split; [done|]. split; [done|].
    intros a b Hab. rewrite pairCalls_pairsOf in Hab.
    apply elem_of_pairsOf in Hab as (i & j & _ & Hi & Hj).
    split; intros ->; apply Hout; apply list_elem_of_lookup; eauto.
  - rewrite bool_decide_eq_true_2 in Hok by done. rewrite Hok.
    assert (Hact : node ∈ activeNodes c1).
    { rewrite Hactive. apply list_elem_of_filter. by rewrite Hok. }
    split; [done|]. split; [done|].
    apply pairHeads_fold_mono. apply Hheads. split; [done|].
    exists node. by rewrite Hobj.
Qed.

End CycleProperties.

(** The poll of the second node of three fails, the others succeed. *)
Lemma poll_outcome_decides_witness :
  let c := final (doChecks Sim.fleetDown [0; 1; 2]%nat) in
  Status (Sim.fleetDown 1%nat) = NodeStatusOK
  ∧ (Status (store c 1%nat) = NodeStatusUnreachable
   ∧ (1%nat ∉ activeNodes c)
   ∧ (∀ a b, (a, b) ∈ pairCalls (activeNodes c) -> a ≠ 1%nat ∧ b ≠ 1%nat))
  ∧ (∀ h v, heads (pollNodes (freshCycle Sim.fleetDown) [0; 1; 2]%nat) !! h = Some v ->
       v = true ∧ ∃ r, r ∈ activeNodes c ∧ HeadNum (store c r) = h).
Proof.
  assert (Hnd : NoDup [0; 1; 2]%nat).
  { apply (bool_decide_unpack _). vm_compute. exact I. }
  assert (Hin : 1%nat ∈ [0; 1; 2]%nat).
  { apply (bool_decide_unpack _). vm_compute. exact I. }
  split; [reflexivity|].
  exact (proj2 (poll_outcome_decides (N := Sim.simNode))
           Sim.fleetDown [0; 1; 2]%nat 1%nat Hnd Hin).
Defined.

Section HeadsOfInterest.
Context {N : Type} `{NodeAPI N}.
Local Abbreviation objects := (Node -> N).

(** C3. After the pairwise phase of a cycle, [heads] holds the head number
    of every active node (the configured nodes being distinct objects)
    and, for every compared pair that diverges, its split height, and the
    height before it when the split height is above 0. *)
Theorem heads_of_interest_complete (s : objects) (nodes : list Node) :
  let c := final (doChecks s nodes) in
  (NoDup nodes ->
   ∀ r, r ∈ activeNodes c -> heads c !! HeadNum (store c r) = Some true)
  ∧ (∀ a b, (a, b) ∈ pairCalls (activeNodes c) ->
       diverging (store c) a b = true ->
       heads c !! splitHeight (store c) a b = Some true
       ∧ (0 < splitHeight (store c) a b ->
          heads c !! (splitHeight (store c) a b - 1) = Some true)).
Proof.
  intros c. subst c.
  destruct (doChecks_phases s nodes) as (E1 & E2 & E3 & _).
  simpl in *. rewrite E1, E2, E3. split.
  - intros Hnd r Hr.
    destruct (pollNodes_spec s nodes Hnd) as (_ & _ & Hheads & _).
    apply pairHeads_fold_mono, Hheads. eauto.
  - intros a b Hab Hdiv. by apply pairHeads_fold_split.
Qed.

End HeadsOfInterest.

(** Heads 100, 100 and 98 and a split at height 50. *)
Lemma heads_of_interest_complete_witness :
  let c := final (doChecks Sim.fleet [0; 1; 2]%nat) in
  (∀ r, r ∈ activeNodes c -> heads c !! HeadNum (store c r) = Some true)
  ∧ (∀ a b, (a, b) ∈ pairCalls (activeNodes c) ->
       diverging (store c) a b = true ->
       heads c !! splitHeight (store c) a b = Some true
       ∧ (0 < splitHeight (store c) a b ->
          heads c !! (splitHeight (store c) a b - 1) = Some true)).
Proof.
  destruct (heads_of_interest_complete Sim.fleet [0; 1; 2]%nat) as [Hheads Hsplit].
  split; [|exact Hsplit].
  apply Hheads. apply (bool_decide_unpack _). vm_compute. exact I.
Defined.

Section SplitSize.
Context {N : Type} `{NodeAPI N}.
Local Abbreviation objects := (Node -> N).

(** C4, amended. The common horizon of a pair is the lower of the two
    head numbers. In a cycle in which the common horizon of every diverging
    pair is below [2^63], the split length of every diverging pair is its
    common horizon less its split height, and the value given to the gauge
    is the largest split length among the diverging pairs, or 0 when no
    pair diverges. *)
Theorem split_size_is_max (s : objects) (nodes : list Node) :
  let r := doChecks s nodes in
  let c := final r in
  let div := filter (fun p => diverging (store c) p.1 p.2)
               (pairCalls (activeNodes c)) in
  Forall (fun p => commonHorizon (store c) p.1 p.2 < 2 ^ 63) div ->
  (∀ a b, commonHorizon (store c) a b
          = Z.min (HeadNum (store c a)) (HeadNum (store c b)))
  ∧ (∀ p, p ∈ div ->
       splitLength (store c) p.1 p.2
       = commonHorizon (store c) p.1 p.2 - splitHeight (store c) p.1 p.2)
  ∧ (∀ p, p ∈ div -> splitLength (store c) p.1 p.2 <= gauge r)
  ∧ (div = [] -> gauge r = 0)
  ∧ (div ≠ [] -> ∃ p, p ∈ div ∧ gauge r = splitLength (store c) p.1 p.2).
Proof.
  intros r c div Hlow. subst r c div.
  destruct (doChecks_phases s nodes) as (E1 & E2 & _ & E4 & _).
  simpl in *. rewrite E1, E2 in *. rewrite E4. clear E1 E2 E4.
  set (c1 := pollNodes (freshCycle s) nodes) in *.
  set (div := filter (fun p => diverging (store c1) p.1 p.2)
                (pairCalls (activeNodes c1))) in *.
  set (lens := (fun p => splitLength (store c1) p.1 p.2) <$> div).
  rewrite list.Forall_forall in Hlow.
  assert (Hlen : ∀ p, p ∈ div ->
            splitLength (store c1) p.1 p.2
            = commonHorizon (store c1) p.1 p.2 - splitHeight (store c1) p.1 p.2
            ∧ 0 <= splitLength (store c1) p.1 p.2 < 2 ^ 63).
  { intros p Hp. specialize (Hlow p Hp).
    destruct (splitLength_exact (store c1) p.1 p.2 Hlow) as [Hr ->].
    split; [done|]. lia. }
  assert (Hpos : Forall (fun x => 0 <= x) lens).
  { apply list.Forall_forall. intros x (p & -> & Hp)%list_elem_of_fmap.
    apply Hlen in Hp. lia. }
  destruct (maxLength_max lens Hpos) as [Hle Hmax].
  rewrite list.Forall_forall in Hle.
  assert (Hint : int_of (maxLength lens) = maxLength lens).
  { destruct Hmax as [[_ ->]|(p & -> & Hp)%list_elem_of_fmap]; [done|].
    apply int_of_low. by apply Hlen. }
  rewrite Hint.
  split; [intros a b; apply commonHorizon_min|].
  split; [intros p Hp; by apply Hlen|].
  split; [|split].
  - intros p Hp. apply Hle. apply list_elem_of_fmap. eauto.
  - intros Hnil. subst lens. by rewrite Hnil.
  - intros Hne. destruct Hmax as [[Hnil _]|(p & Hp & Hin)%list_elem_of_fmap].
    + subst lens. apply fmap_nil_inv in Hnil. done.
    + eauto.
Qed.

End SplitSize.

(** Heads 100, 100 and 98 and a split at height 50: the gauge reads 50. *)
Lemma split_size_is_max_witness :
  let r := doChecks Sim.fleet [0; 1; 2]%nat in
  let c := final r in
  let div := filter (fun p => diverging (store c) p.1 p.2)
               (pairCalls (activeNodes c)) in
  (∀ a b, commonHorizon (store c) a b
          = Z.min (HeadNum (store c a)) (HeadNum (store c b)))
  ∧ (∀ p, p ∈ div ->
       splitLength (store c) p.1 p.2
       = commonHorizon (store c) p.1 p.2 - splitHeight (store c) p.1 p.2)
  ∧ (∀ p, p ∈ div -> splitLength (store c) p.1 p.2 <= gauge r)
  ∧ (div = [] -> gauge r = 0)
  ∧ (div ≠ [] -> ∃ p, p ∈ div ∧ gauge r = splitLength (store c) p.1 p.2).
Proof.
  apply (split_size_is_max Sim.fleet [0; 1; 2]%nat).
  apply (bool_decide_unpack _). vm_compute. exact I.
Defined.

(** Where C4 fails as stated: two nodes with the head [2^63] that differ
    at every height diverge; the horizon less the split height is [2^63],
    the split length that the cycle computes is [-2^63], and the gauge
    reads 0. *)
Lemma split_size_wraps :
  diverging (store (final (doChecks Sim.fleetHigh [0; 1]%nat))) 0%nat 1%nat = true
  ∧ commonHorizon (store (final (doChecks Sim.fleetHigh [0; 1]%nat))) 0%nat 1%nat
    - splitHeight (store (final (doChecks Sim.fleetHigh [0; 1]%nat))) 0%nat 1%nat
    = 2 ^ 63
  ∧ splitLength (store (final (doChecks Sim.fleetHigh [0; 1]%nat))) 0%nat 1%nat
    = - 2 ^ 63
  ∧ gauge (doChecks Sim.fleetHigh [0; 1]%nat) = 0.
Proof. vm_compute. done. Qed.

Section MissingBlocks.
Context {N : Type} `{NodeAPI N}.
Local Abbreviation objects := (Node -> N).

(** C7. When [BlockAt] at the common horizon returns nil for one of the
    two nodes, the closure returns with [splitSize], [heads], the node
    objects and the active nodes as they were (it adds a line to the log);
    and the pairwise phase leaves [heads] and [splitSize] as the phase over
    the other pairs alone leaves them. *)
Theorem missing_block_abandons_pair :
  (∀ (a b : Node) (c : cycle),
     BlockAt (store c a) (commonHorizon (store c) a b) false = None
     ∨ BlockAt (store c b) (commonHorizon (store c) a b) false = None ->
     splitSize (comparePair a b c) = splitSize c
     ∧ heads (comparePair a b c) = heads c
     ∧ store (comparePair a b c) = store c
     ∧ activeNodes (comparePair a b c) = activeNodes c)
  ∧ (∀ (elems : list Node) (c : cycle),
       let kept := filter (fun p => missingBlock (store c) p.1 p.2 = false)
                     (pairCalls elems) in
       let c1 := forPairs elems comparePair c in
       let c2 := foldl (fun c p => comparePair p.1 p.2 c) c kept in
       splitSize c1 = splitSize c2 ∧ heads c1 = heads c2
       ∧ store c1 = store c2 ∧ activeNodes c1 = activeNodes c2).
Proof.
  split.
  - intros a b c Hnil%missingBlock_spec%diverging_missingBlock.
    destruct (comparePair_effect a b c) as (-> & -> & -> & ->).
    unfold pairHeads, pairSize. by rewrite Hnil.
  - intros elems c kept c1 c2. subst c1 c2. rewrite forPairs_calls.
    destruct (comparePairs_effect (pairCalls elems) c) as (-> & -> & -> & ->).
    destruct (comparePairs_effect kept c) as (-> & -> & -> & ->).
    subst kept.
    assert (Hskip : ∀ p : Node * Node,
              ¬ missingBlock (store c) p.1 p.2 = false ->
              diverging (store c) p.1 p.2 = false).
    { intros p Hp. apply diverging_missingBlock.
      by destruct (missingBlock (store c) p.1 p.2). }
    rewrite !foldl_filter_neutral; [done| |].
    + intros m p Hp. unfold pairHeads. by rewrite Hskip.
    + intros z p Hp. unfold pairSize. by rewrite Hskip.
Qed.

End MissingBlocks.

(** The third of three nodes has no block at height 98: its two pairs are
    abandoned, and the split of the first pair is found all the same. *)
Lemma missing_block_abandons_pair_witness :
  splitSize (comparePair 0%nat 2%nat (pollNodes (freshCycle Sim.fleetGap) [0; 1; 2]%nat))
  = splitSize (pollNodes (freshCycle Sim.fleetGap) [0; 1; 2]%nat)
  ∧ heads (comparePair 0%nat 2%nat (pollNodes (freshCycle Sim.fleetGap) [0; 1; 2]%nat))
    = heads (pollNodes (freshCycle Sim.fleetGap) [0; 1; 2]%nat)
  ∧ heads (final (doChecks Sim.fleetGap [0; 1; 2]%nat))
    = heads (comparePair 0%nat 1%nat
               (pollNodes (freshCycle Sim.fleetGap) [0; 1; 2]%nat)).
Proof.
  destruct (missing_block_abandons_pair (N := Sim.simNode)) as [Hone Hall].
  set (c0 := pollNodes (freshCycle Sim.fleetGap) [0; 1; 2]%nat).
  assert (Hnil : BlockAt (store c0 0%nat) (commonHorizon (store c0) 0%nat 2%nat) false = None
                 ∨ BlockAt (store c0 2%nat) (commonHorizon (store c0) 0%nat 2%nat) false = None).
  { right. vm_compute. reflexivity. }
  destruct (Hone 0%nat 2%nat c0 Hnil) as (H1 & H2 & _).
  split; [exact H1|]. split; [exact H2|].
  exact (proj1 (proj2 (Hall [0; 1; 2]%nat c0))).
Defined.

Section HeightList.
Context {N : Type} `{NodeAPI N}.
Local Abbreviation objects := (Node -> N).

(** C8, amended. In a cycle in which every height of [heads] is below
    [2^63], the list of heights handed to the report is strictly
    descending, has no height twice, and holds the heights of [heads] and
    nothing else. *)
Theorem headList_descending (s : objects) (nodes : list Node) :
  let r := doChecks s nodes in
  map_Forall (fun h _ => h < 2 ^ 63) (heads (final r)) ->
  StronglySorted (fun x y => y < x) (headList r)
  ∧ NoDup (headList r)
  ∧ ∀ h, h ∈ headList r ↔ is_Some (heads (final r) !! h).
Proof.
  intros r Hlow. subst r.
  destruct (headList_strict s nodes) as (Hsorted & Hnd & Hel).
  split; [done|]. split; [done|].
  assert (Hid : ∀ h, is_Some (heads (final (doChecks s nodes)) !! h) ->
                     int_of h = h).
  { intros h Hh. pose proof (doChecks_heads_uint64 s nodes h Hh) as [Hpos _].
    destruct Hh as [v Hv]. apply Hlow in Hv. apply int_of_low. lia. }
  intros h. rewrite Hel. split.
  - intros (k & Hk & ->). by rewrite Hid.
  - intros Hh. exists h. by rewrite Hid.
Qed.

End HeightList.

(** Heads 100, 100 and 98 and a split at height 50. *)
Lemma headList_descending_witness :
  headList (doChecks Sim.fleet [0; 1; 2]%nat) = [100; 98; 50; 49]
  ∧ StronglySorted (fun x y => y < x) (headList (doChecks Sim.fleet [0; 1; 2]%nat))
  ∧ NoDup (headList (doChecks Sim.fleet [0; 1; 2]%nat))
  ∧ ∀ h, h ∈ headList (doChecks Sim.fleet [0; 1; 2]%nat)
         ↔ is_Some (heads (final (doChecks Sim.fleet [0; 1; 2]%nat)) !! h).
Proof.
  split; [vm_compute; reflexivity|].
  apply (headList_descending Sim.fleet [0; 1; 2]%nat).
  apply (bool_decide_unpack _). vm_compute. exact I.
Defined.

(** Where C8 fails as stated: with the heads 5 and [2^63] the list is
    [5; -2^63]. The height [2^63] is in [heads] and not in the list, and
    the lower height comes first. *)
Lemma headList_wraps :
  headList (doChecks Sim.fleetFar [0; 1]%nat) = [5; - 2 ^ 63]
  ∧ heads (final (doChecks Sim.fleetFar [0; 1]%nat)) !! (2 ^ 63) = Some true
  ∧ heads (final (doChecks Sim.fleetFar [0; 1]%nat)) !! 5 = Some true.
Proof. vm_compute. done. Qed.

(** ** The header store *)

Section HeaderStoreProperties.
Variable Header : Type.
Variable EncodeToBytes : Header -> list Byte.byte + string.
Variable DecodeBytes : list Byte.byte -> Header + string.

Lemma Has_present (d : LevelDB.DB) (key : Z) :
  LevelDB.failing d LevelDB.OpHas = None ->
  is_Some (LevelDB.table d !! key) ->
  LevelDB.Has d key = (true, None).
Proof.
  intros Hok Hkey. unfold LevelDB.Has. rewrite Hok.
  by rewrite bool_decide_eq_true_2.
Qed.

Lemma Has_absent (d : LevelDB.DB) (key : Z) :
  LevelDB.table d !! key = None -> fst (LevelDB.Has d key) = false.
Proof.
  intros Hkey. unfold LevelDB.Has.
  destruct (LevelDB.failing d LevelDB.OpHas); [done|]. simpl.
  apply bool_decide_eq_false_2. rewrite Hkey. by intros [? ?].
Qed.

(** [add] under a key that [Has] reports present returns at once. *)
Lemma add_present (d : blockDB) (key : Hash) (h : Header) :
  LevelDB.failing (db d) LevelDB.OpHas = None ->
  is_Some (LevelDB.table (db d) !! key) ->
  add Header EncodeToBytes d key h = Returns d.
Proof.
  intros Hok Hkey. unfold add.
  by rewrite (Has_present _ _ Hok Hkey).
Qed.


(** C10. [get] returns nil for every error of the read, whatever the
    error, and so for a key that is not in the table; it panics only when
    the read returns the bytes stored under the key and they do not
    decode. *)
Theorem get_collapses_read_failures (d : blockDB) (key : Hash) :
  (∀ data e, LevelDB.Get (db d) key = (data, Some e) ->
             get Header DecodeBytes d key = Returns None)
  ∧ (LevelDB.table (db d) !! key = None -> get Header DecodeBytes d key = Returns None)
  ∧ (∀ msg, get Header DecodeBytes d key = Panics msg ->
       ∃ data err,
         LevelDB.Get (db d) key = (data, None)
         ∧ LevelDB.table (db d) !! key = Some data
         ∧ DecodeBytes data = inr err).
Proof.
  unfold get. split; [|split].
  - intros data e ->. done.
  - intros Hkey. unfold LevelDB.Get.
    destruct (LevelDB.failing (db d) LevelDB.OpGet); [done|].
    by rewrite Hkey.
  - intros msg. unfold LevelDB.Get.
    destruct (LevelDB.failing (db d) LevelDB.OpGet); [done|].
    destruct (LevelDB.table (db d) !! key) as [data|] eqn:Hkey; [|done].
    destruct (DecodeBytes data) as [h|err] eqn:Hdec; [done|].
    intros _. by exists data, err.
Qed.

End HeaderStoreProperties.


(** ** Opening the store *)

Section OpenStoreProperties.
Variable World : Type.
Variable OpenFile : string -> World -> (LevelDB.DB + LevelDB.dbError) * World.
Variable RecoverFile : string -> World -> (LevelDB.DB + LevelDB.dbError) * World.


End OpenStoreProperties.

(** ** The store on examples *)

(** The code drops the error of [Has]: when the check itself fails and
    the write works, [add] writes, whether or not the key is present. *)
Lemma add_unchecked (Header : Type)
    (EncodeToBytes : Header -> list Byte.byte + string)
    (d : blockDB) (key : Hash) (h : Header) (data : list Byte.byte)
    (e : LevelDB.dbError) :
  LevelDB.failing (db d) LevelDB.OpHas = Some e ->
  LevelDB.failing (db d) LevelDB.OpPut = None ->
  EncodeToBytes h = inl data ->
  add Header EncodeToBytes d key h
  = Returns {| db := {| LevelDB.table := <[key := data]> (LevelDB.table (db d));
                        LevelDB.failing := LevelDB.failing (db d) |} |}.
Proof.
  intros Hhas Hput Henc. unfold add, LevelDB.Has, LevelDB.Put.
  by rewrite Hhas, Henc, Hput.
Qed.

(** A closed handle: [get] returns nil for a key that is in the table. *)
Example get_closed_handle :
  get SimStore.header SimStore.decode
    {| db := {| LevelDB.table := {[ 7 := [Byte.x61] ]};
                LevelDB.failing := fun _ => Some LevelDB.ErrClosed |} |} 7
  = Returns None.
Proof. reflexivity. Qed.

(** Stored bytes that do not decode: [get] panics. *)
Example get_undecodable :
  get SimStore.header SimStore.decode
    {| db := {| LevelDB.table := {[ 7 := [] ]};
                LevelDB.failing := fun _ => None |} |} 7
  = Panics "Failed decoding our own data: too few elements".
Proof. vm_compute. reflexivity. Qed.

(** A damaged file that can be recovered gives the store, one that cannot
    gives the error of the recovery. *)
Example NewBlockDB_recovered :
  NewBlockDB bool SimStore.open SimStore.recover true
  = (inl SimStore.empty, true).
Proof. reflexivity. Qed.

Example NewBlockDB_unrecoverable :
  NewBlockDB bool SimStore.open SimStore.recover false
  = (inr (LevelDB.ErrIO "unreadable"), false).
Proof. reflexivity. Qed.

(** ** The cycle on the example of three nodes *)

Example doChecks_fleet :
  gauge (doChecks Sim.fleet [0; 1; 2]%nat) = 50
  ∧ headList (doChecks Sim.fleet [0; 1; 2]%nat) = [100; 98; 50; 49]
  ∧ activeNodes (final (doChecks Sim.fleet [0; 1; 2]%nat)) = [0; 1; 2]%nat.
Proof. vm_compute. done. Qed.

Example doChecks_fleetDown :
  gauge (doChecks Sim.fleetDown [0; 1; 2]%nat) = 0
  ∧ headList (doChecks Sim.fleetDown [0; 1; 2]%nat) = [100; 98]
  ∧ activeNodes (final (doChecks Sim.fleetDown [0; 1; 2]%nat)) = [0; 2]%nat.
Proof. vm_compute. done. Qed.

(** * Further properties of the code *)

(** ** The search *)

Lemma search_run_boundary f n i j r :
  0 <= i -> i <= j -> j <= n -> n < 2 ^ 63 ->
  (i = 0 ∨ f (i - 1) = false) -> (j = n ∨ f j = true) ->
  Sort.search_run f i j r ->
  i <= r <= j ∧ (r = 0 ∨ f (r - 1) = false) ∧ (r = n ∨ f r = true).
Proof.
  intros Hi Hij Hjn Hn Hlo Hhi Hrun.
  induction Hrun as [i j Hle|i j r Hlt Hf _ IH|i j r Hlt Hf _ IH].
  - assert (i = j) as -> by lia. split; [lia|done].
  - pose proof (midpoint_between i j Hi Hlt ltac:(lia)) as Hm.
    destruct IH as (Hr & Hr1 & Hr2); try lia; [|done|].
    + right. by replace (Sort.midpoint i j + 1 - 1) with (Sort.midpoint i j) by lia.
    + split; [lia|done].
  - pose proof (midpoint_between i j Hi Hlt ltac:(lia)) as Hm.
    destruct IH as (Hr & Hr1 & Hr2); try lia; [done|by right|].
    split; [lia|done].
Qed.

Lemma search_iterations_bound (k fuel : nat) f i j :
  0 <= i -> j < 2 ^ 63 -> j - i < 2 ^ Z.of_nat k ->
  (search_iterations fuel f i j ≤ k)%nat.
Proof.
  revert fuel i j. induction k as [|k IH]; intros fuel i j Hi Hj Hsize.
  - destruct fuel as [|fuel]; simpl; [done|].
    rewrite bool_decide_eq_false_2; [done|]. simpl in Hsize. lia.
  - destruct fuel as [|fuel]; simpl; [lia|].
    case_bool_decide as Hlt; [|lia].
    pose proof (midpoint_between i j Hi Hlt Hj) as Hm.
    pose proof (midpoint_half i j Hi ltac:(lia) Hj) as Hh.
    assert (Hdiv : 2 * Sort.midpoint i j <= i + j < 2 * Sort.midpoint i j + 2).
    { rewrite Hh. pose proof (Z.div_mod (i + j) 2 ltac:(lia)).
      pose proof (Z.mod_pos_bound (i + j) 2 ltac:(lia)). lia. }
    assert (Hpow : 2 ^ Z.of_nat (S k) = 2 * 2 ^ Z.of_nat k).
    { rewrite Nat2Z.inj_succ, Z.pow_succ_r by lia. done. }
    rewrite Hpow in Hsize.
    apply le_n_S. destruct (f (Sort.midpoint i j)); simpl; apply IH; lia.
Qed.

(** The iterations counted are all the loop runs. *)
Lemma search_loop_iterations (fuel : nat) f i j :
  Sort.search_loop (search_iterations fuel f i j) f i j
  = Sort.search_loop fuel f i j.
Proof.
  revert i j. induction fuel as [|fuel IH]; intros i j; [done|].
  simpl. case_bool_decide; [|done]. simpl.
  rewrite bool_decide_eq_true_2 by done.
  destruct (f (Sort.midpoint i j)); simpl; apply IH.
Qed.

Section FindSplitMore.
Context {N : Type} `{NodeAPI N}.
Local Abbreviation objects := (Node -> N).

(** X1. Whatever the hashes are, also when the nodes agree again above a
    height at which they differ, [findSplit(n, a, b)] lies in [0, n], the
    hashes differ at the height it returns when that is below [n], and
    they agree at the height before it when there is one. *)
Theorem findSplit_boundary (s : objects) (n : Z) (a b : Node) :
  0 <= n < 2 ^ 63 ->
  0 <= findSplit s n a b <= n
  ∧ (findSplit s n a b < n ->
     HashAt (s a) (findSplit s n a b) false
     ≠ HashAt (s b) (findSplit s n a b) false)
  ∧ (0 < findSplit s n a b ->
     HashAt (s a) (findSplit s n a b - 1) false
     = HashAt (s b) (findSplit s n a b - 1) false).
Proof.
  intros Hn. unfold findSplit.
  set (f := fun i => bool_decide (HashAt (s a) (uint64_of i) false
                                  ≠ HashAt (s b) (uint64_of i) false)).
  destruct (search_run_boundary f n 0 n (Sort.Search n f))
    as (Hr & Hlo & Hhi); try lia; [by left..|apply Search_run; lia|].
  split; [done|]. split.
  - intros Hlt. destruct Hhi as [?|Hf]; [lia|].
    subst f. simpl in Hf. apply bool_decide_eq_true_1 in Hf.
    by rewrite uint64_of_id in Hf by (unfold is_uint64; lia).
  - intros Hpos. destruct Hlo as [?|Hf]; [lia|].
    subst f. simpl in Hf. apply bool_decide_eq_false_1 in Hf.
    rewrite uint64_of_id in Hf by (unfold is_uint64; lia).
    by destruct (decide (HashAt (s a) (Sort.Search n
         (fun i => bool_decide (HashAt (s a) (uint64_of i) false
                                ≠ HashAt (s b) (uint64_of i) false)) - 1) false
       = HashAt (s b) (Sort.Search n
         (fun i => bool_decide (HashAt (s a) (uint64_of i) false
                                ≠ HashAt (s b) (uint64_of i) false)) - 1) false)).
Qed.


(** X3. Below a positive bound [n], [findSplit] compares hashes at no
    more than [log2 n + 1] heights: the loop of the search is over after
    that many iterations, each of which compares one pair of hashes. *)
Theorem findSplit_iterations (s : objects) (n : Z) (a b : Node) :
  0 < n < 2 ^ 63 ->
  let f := fun i => bool_decide (HashAt (s a) (uint64_of i) false
                                 ≠ HashAt (s b) (uint64_of i) false) in
  let c := search_iterations (Z.to_nat n) f 0 n in
  (c ≤ Z.to_nat (Z.log2 n) + 1)%nat
  ∧ Sort.search_loop c f 0 n = findSplit s n a b.
Proof.
  intros Hn f c. split; [|apply search_loop_iterations].
  subst c. apply search_iterations_bound; [lia..|].
  destruct (Z.log2_spec n ltac:(lia)) as [_ Hlog].
  pose proof (Z.log2_nonneg n).
  replace (Z.of_nat (Z.to_nat (Z.log2 n) + 1)) with (Z.succ (Z.log2 n)) by lia.
  lia.
Qed.

End FindSplitMore.

(** Two chains that part at height 50, searched below height 100. *)
Lemma findSplit_boundary_witness :
  0 <= findSplit Sim.fleet 100 0%nat 1%nat <= 100
  ∧ (findSplit Sim.fleet 100 0%nat 1%nat < 100 ->
     HashAt (Sim.fleet 0%nat) (findSplit Sim.fleet 100 0%nat 1%nat) false
     ≠ HashAt (Sim.fleet 1%nat) (findSplit Sim.fleet 100 0%nat 1%nat) false)
  ∧ (0 < findSplit Sim.fleet 100 0%nat 1%nat ->
     HashAt (Sim.fleet 0%nat) (findSplit Sim.fleet 100 0%nat 1%nat - 1) false
     = HashAt (Sim.fleet 1%nat) (findSplit Sim.fleet 100 0%nat 1%nat - 1) false).
Proof. apply (findSplit_boundary Sim.fleet 100 0%nat 1%nat). lia. Defined.

(** Below height 100 the search takes 7 iterations at most. *)
Lemma findSplit_iterations_witness :
  (search_iterations (Z.to_nat 100)
     (fun i => bool_decide (HashAt (Sim.fleet 0%nat) (uint64_of i) false
                            ≠ HashAt (Sim.fleet 1%nat) (uint64_of i) false))
     0 100 ≤ Z.to_nat (Z.log2 100) + 1)%nat
  ∧ Sort.search_loop
      (search_iterations (Z.to_nat 100)
         (fun i => bool_decide (HashAt (Sim.fleet 0%nat) (uint64_of i) false
                                ≠ HashAt (Sim.fleet 1%nat) (uint64_of i) false))
         0 100)
      (fun i => bool_decide (HashAt (Sim.fleet 0%nat) (uint64_of i) false
                             ≠ HashAt (Sim.fleet 1%nat) (uint64_of i) false))
      0 100
    = findSplit Sim.fleet 100 0%nat 1%nat.
Proof. apply (findSplit_iterations Sim.fleet 100 0%nat 1%nat). lia. Defined.

(** ** The order of the calls *)

(** X4. [forPairs] calls nothing on a list of fewer than two nodes; on a
    longer list it first pairs the first node with each later node, in
    list order, and then goes on with the rest of the list. *)
Theorem forPairs_cons {S : Type} (fn : Node -> Node -> S -> S) (s : S)
    (x : Node) (rest : list Node) :
  forPairs [] fn s = s
  ∧ forPairs [x] fn s = s
  ∧ forPairs (x :: rest) fn s
    = forPairs rest fn (foldl (fun s b => fn x b s) s rest)
  ∧ pairCalls (x :: rest) = (pair x <$> rest) ++ pairCalls rest.
Proof.
  split; [done|]. split; [done|]. split.
  - rewrite !forPairs_pairsOf. simpl. by rewrite foldl_app, foldl_fmap.
  - by rewrite !pairCalls_pairsOf.
Qed.

(** ** More on the cycle *)

Lemma maxLength_below (l : list Z) (bound : Z) :
  0 < bound -> Forall (fun x => x < bound) l -> maxLength l < bound.
Proof. intros Hb. induction 1 as [|x l Hx _ IH]; simpl; lia. Qed.

Section CycleMore.
Context {N : Type} `{NodeAPI N}.
Local Abbreviation objects := (Node -> N).

Lemma splitLength_int (s : objects) (a b : Node) : is_int (splitLength s a b).
Proof. unfold splitLength. apply int_of_range. Qed.

(** A key of [heads] after one call of the closure was there before, or
    is the split height of the pair or the height before it. *)
Lemma pairHeads_inv (s : objects) (a b : Node) (m : gmap Z bool) (h : Z) (v : bool) :
  pairHeads s a b m !! h = Some v ->
  m !! h = Some v
  ∨ (v = true ∧ diverging s a b = true
     ∧ (h = splitHeight s a b
        ∨ (0 < splitHeight s a b ∧ h = splitHeight s a b - 1))).
Proof.
  unfold pairHeads. destruct (diverging s a b); [|by left].
  pose proof (splitHeight_range s a b) as Hr.
  rewrite (uint64_of_id (splitHeight s a b)) by (unfold is_uint64; lia).
  case_bool_decide as Hpos.
  - rewrite int_of_low by lia.
    rewrite (uint64_of_id (_ - 1)) by (unfold is_uint64; lia).
    destruct (decide (h = splitHeight s a b - 1)) as [->|Hne1].
    { rewrite lookup_insert_eq. intros [= <-]. right. auto. }
    rewrite lookup_insert_ne by done.
    destruct (decide (h = splitHeight s a b)) as [->|Hne2].
    { rewrite lookup_insert_eq. intros [= <-]. right. auto. }
    rewrite lookup_insert_ne by done. by left.
  - destruct (decide (h = splitHeight s a b)) as [->|Hne2].
    { rewrite lookup_insert_eq. intros [= <-]. right. auto. }
    rewrite lookup_insert_ne by done. by left.
Qed.

Lemma pairHeads_fold_inv (s : objects) (ps : list (Node * Node))
    (m : gmap Z bool) (h : Z) (v : bool) :
  foldl (fun m p => pairHeads s p.1 p.2 m) m ps !! h = Some v ->
  m !! h = Some v
  ∨ (v = true ∧ ∃ a b, (a, b) ∈ ps ∧ diverging s a b = true
     ∧ (h = splitHeight s a b
        ∨ (0 < splitHeight s a b ∧ h = splitHeight s a b - 1))).
Proof.
  revert m. induction ps as [|[a b] ps IH]; intros m; [by left|].
  simpl. intros [Hm|(-> & a' & b' & Hin & Hrest)]%IH.
  - apply pairHeads_inv in Hm as [Hm|(-> & Hdiv & Hh)]; [by left|].
    right. split; [done|]. exists a, b. split; [|done].
    apply elem_of_cons. by left.
  - right. split; [done|]. exists a', b'. split; [|done].
    apply elem_of_cons. by right.
Qed.

(** X5. After a cycle over distinct nodes every height in [heads] is the
    head number of an active node, or the split height of a compared pair
    that diverges, or the height before such a split height: [heads]
    holds nothing else, and every entry is [true]. *)
Theorem heads_of_interest_sound (s : objects) (nodes : list Node)
    (h : Z) (v : bool) :
  NoDup nodes ->
  let c := final (doChecks s nodes) in
  heads c !! h = Some v ->
  v = true
  ∧ ((∃ r, r ∈ activeNodes c ∧ HeadNum (store c r) = h)
     ∨ (∃ a b, (a, b) ∈ pairCalls (activeNodes c)
          ∧ diverging (store c) a b = true
          ∧ (h = splitHeight (store c) a b
             ∨ (0 < splitHeight (store c) a b
                ∧ h = splitHeight (store c) a b - 1)))).
Proof.
  intros Hnd c. subst c.
  destruct (pollNodes_spec s nodes Hnd) as (_ & _ & Hheads & _).
  destruct (doChecks_phases s nodes) as (E1 & E2 & E3 & _).
  simpl in *. rewrite E1, E2, E3.
  intros [Hm|(-> & Hpair)]%pairHeads_fold_inv.
  - apply Hheads in Hm as [-> Hr]. split; [done|]. by left.
  - split; [done|]. by right.
Qed.

(** X6. The value given to the gauge is [splitSize] as the cycle leaves
    it, and it is never negative, whatever the nodes report. *)
Theorem gauge_nonnegative (s : objects) (nodes : list Node) :
  gauge (doChecks s nodes) = splitSize (final (doChecks s nodes))
  ∧ 0 <= gauge (doChecks s nodes) < 2 ^ 63.
Proof.
  assert (Hg : 0 <= splitSize (final (doChecks s nodes)) < 2 ^ 63).
  { unfold doChecks. simpl. rewrite forPairs_calls.
    set (c1 := pollNodes (freshCycle s) nodes).
    destruct (comparePairs_effect (pairCalls (activeNodes c1)) c1)
      as (_ & _ & _ & E4).
    simpl in E4. rewrite E4, pairSize_fold.
    destruct (pollNodes_frame (freshCycle s) nodes) as [Hz _].
    fold c1 in Hz. rewrite Hz. simpl.
    match goal with |- _ <= foldr Z.max 0 ?l < _ =>
      change (foldr Z.max 0 l) with (maxLength l);
      pose proof (maxLength_nonneg l);
      pose proof (maxLength_below l (2 ^ 63) ltac:(lia)) as Hb end.
    split; [done|]. apply Hb.
    apply list.Forall_forall. intros x (p & -> & _)%list_elem_of_fmap.
    pose proof (splitLength_int (store c1) p.1 p.2) as Hi.
    unfold is_int in Hi. lia. }
  assert (Heq : gauge (doChecks s nodes)
                = int_of (splitSize (final (doChecks s nodes)))) by done.
  rewrite Heq, int_of_low by done. done.
Qed.

Lemma pollNode_store_other (c : cycle) (node r : Node) :
  r ≠ node -> store (pollNode c node) r = store c r.
Proof.
  intros Hne. destruct (pollOk (store c) node) eqn:Hok.
  - destruct (pollNode_succeeded c node Hok) as (-> & _).
    by apply fn_lookup_insert_ne.
  - destruct (pollNode_failed c node Hok) as (-> & _).
    by apply fn_lookup_insert_ne.
Qed.

Lemma pollNodes_store_other (c : cycle) (nodes : list Node) (r : Node) :
  r ∉ nodes -> store (pollNodes c nodes) r = store c r.
Proof.
  revert c. induction nodes as [|node nodes IH]; intros c Hr; [done|].
  apply not_elem_of_cons in Hr as [Hne Hr].
  simpl. rewrite IH by done. by apply pollNode_store_other.
Qed.

(** X7. A cycle changes the objects of the configured nodes only, and
    only in the polling loop: a node that is not in the list keeps its
    object; over distinct nodes, every configured node ends the cycle
    with the object its own poll left, and the active nodes are the
    configured nodes whose poll succeeded, in the configured order. *)
Theorem doChecks_frame (s : objects) (nodes : list Node) :
  let c := final (doChecks s nodes) in
  store c = store (pollNodes (freshCycle s) nodes)
  ∧ (∀ r, r ∉ nodes -> store c r = s r)
  ∧ (NoDup nodes ->
     (∀ r, r ∈ nodes -> store c r = polledObject s r)
     ∧ activeNodes c = filter (fun r => pollOk s r) nodes).
Proof.
  intros c. subst c.
  destruct (doChecks_phases s nodes) as (E1 & E2 & _).
  simpl in *. rewrite E1, E2.
  split; [done|]. split.
  - intros r Hr. by rewrite pollNodes_store_other.
  - intros Hnd.
    destruct (pollNodes_spec s nodes Hnd) as (Hstore & Hactive & _).
    split; [|done]. intros r Hr. rewrite Hstore.
    by rewrite bool_decide_eq_true_2.
Qed.

(** X8. The list handed to the report is strictly descending in every
    cycle; it has one entry for every height in [heads], the height
    converted with [int]. *)
Theorem headList_always_strict (s : objects) (nodes : list Node) :
  let r := doChecks s nodes in
  StronglySorted (fun x y => y < x) (headList r)
  ∧ length (headList r) = size (heads (final r))
  ∧ ∀ z, z ∈ headList r ↔ ∃ h, is_Some (heads (final r) !! h) ∧ z = int_of h.
Proof.
  intros r. subst r.
  destruct (headList_strict s nodes) as (Hsorted & _ & Hel).
  split; [done|]. split; [|done].
  destruct (doChecks_phases s nodes) as (_ & _ & _ & _ & ->).
  unfold Sort.SortReverseInts. rewrite merge_sort_Permutation.
  unfold rangeKeys. by rewrite !length_fmap, length_map_to_list.
Qed.

(** X9. The list handed to the report does not depend on the order in
    which the range over the map [heads] yields the heights. *)
Theorem headList_any_range_order (s : objects) (nodes : list Node)
    (keys : list Z) :
  keys ≡ₚ rangeKeys (heads (final (doChecks s nodes))) ->
  Sort.SortReverseInts (int_of <$> keys) = headList (doChecks s nodes).
Proof.
  intros Hperm.
  destruct (doChecks_phases s nodes) as (_ & _ & _ & _ & ->).
  apply SortReverseInts_order. by rewrite Hperm.
Qed.

End CycleMore.

(** Heads 100, 100 and 98 and a split at height 50. *)
Lemma heads_of_interest_sound_witness :
  true = true
  ∧ ((∃ r, r ∈ activeNodes (final (doChecks Sim.fleet [0; 1; 2]%nat))
        ∧ HeadNum (store (final (doChecks Sim.fleet [0; 1; 2]%nat)) r) = 49)
     ∨ (∃ a b, (a, b) ∈ pairCalls (activeNodes (final (doChecks Sim.fleet [0; 1; 2]%nat)))
          ∧ diverging (store (final (doChecks Sim.fleet [0; 1; 2]%nat))) a b = true
          ∧ (49 = splitHeight (store (final (doChecks Sim.fleet [0; 1; 2]%nat))) a b
             ∨ (0 < splitHeight (store (final (doChecks Sim.fleet [0; 1; 2]%nat))) a b
                ∧ 49 = splitHeight (store (final (doChecks Sim.fleet [0; 1; 2]%nat))) a b - 1)))).
Proof.
  apply (heads_of_interest_sound Sim.fleet [0; 1; 2]%nat 49 true).
  - apply (bool_decide_unpack _). vm_compute. exact I.
  - vm_compute. reflexivity.
Defined.

(** The heights in another order than the map yields them. *)
Lemma headList_any_range_order_witness :
  Sort.SortReverseInts (int_of <$> [98; 49; 100; 50])
  = headList (doChecks Sim.fleet [0; 1; 2]%nat).
Proof.
  apply (headList_any_range_order Sim.fleet [0; 1; 2]%nat [98; 49; 100; 50]).
  apply (bool_decide_unpack _). vm_compute. exact I.
Defined.

(** ** More on the header store *)

Section HeaderStoreMore.
Variable Header : Type.
Variable EncodeToBytes : Header -> list Byte.byte + string.
Variable DecodeBytes : list Byte.byte -> Header + string.

(** What an [add] that returns has done. *)
Lemma add_returns (d d' : blockDB) (key : Hash) (h : Header) :
  add Header EncodeToBytes d key h = Returns d' ->
  d' = d
  ∨ (fst (LevelDB.Has (db d) key) = false
     ∧ ∃ data, EncodeToBytes h = inl data
        ∧ d' = {| db := fst (LevelDB.Put (db d) key data) |}).
Proof.
  unfold add. destruct (fst (LevelDB.Has (db d) key)); [intros [= <-]; by left|].
  destruct (EncodeToBytes h) as [data|e]; [|done].
  intros [= <-]. right. split; [done|]. by exists data.
Qed.

Lemma Put_table (d : LevelDB.DB) (key : Z) (data : list Byte.byte) :
  LevelDB.failing (fst (LevelDB.Put d key data)) = LevelDB.failing d
  ∧ (LevelDB.table (fst (LevelDB.Put d key data)) = LevelDB.table d
     ∨ LevelDB.table (fst (LevelDB.Put d key data))
       = <[key := data]> (LevelDB.table d)).
Proof.
  unfold LevelDB.Put. destruct (LevelDB.failing d LevelDB.OpPut); simpl; auto.
Qed.

Lemma add_effect (d d' : blockDB) (key : Hash) (h : Header) :
  add Header EncodeToBytes d key h = Returns d' ->
  (∀ k, k ≠ key ->
     LevelDB.table (db d') !! k = LevelDB.table (db d) !! k)
  ∧ (∀ k, is_Some (LevelDB.table (db d) !! k) ->
          is_Some (LevelDB.table (db d') !! k))
  ∧ LevelDB.failing (db d') = LevelDB.failing (db d).
Proof.
  intros [->|(_ & data & _ & ->)]%add_returns; [done|]. simpl.
  destruct (Put_table (db d) key data) as [Hf [Ht|Ht]]; rewrite Ht.
  - done.
  - split; [|split; [|done]].
    + intros k Hk. by rewrite lookup_insert_ne.
    + intros k Hk. destruct (decide (key = k)) as [->|Hne].
      * rewrite lookup_insert_eq. by eexists.
      * by rewrite lookup_insert_ne.
Qed.

(** X10. An [add] that returns leaves every other key of the table as
    it was, removes no key, and does not change which operations of the
    handle fail. *)
Theorem add_frame (d d' : blockDB) (key : Hash) (h : Header) :
  add Header EncodeToBytes d key h = Returns d' ->
  (∀ k, k ≠ key ->
     LevelDB.table (db d') !! k = LevelDB.table (db d) !! k)
  ∧ (∀ k, is_Some (LevelDB.table (db d) !! k) ->
          is_Some (LevelDB.table (db d') !! k))
  ∧ LevelDB.failing (db d') = LevelDB.failing (db d).
Proof. apply add_effect. Qed.

(** X11. The table is written once per key: on a handle whose check for
    a key works, the bytes stored under a key survive every later [add],
    under that key or another, of whatever header. *)
Theorem add_write_once (d d' : blockDB) (key key' : Hash) (h' : Header)
    (value : list Byte.byte) :
  LevelDB.failing (db d) LevelDB.OpHas = None ->
  LevelDB.table (db d) !! key = Some value ->
  add Header EncodeToBytes d key' h' = Returns d' ->
  LevelDB.table (db d') !! key = Some value
  ∧ LevelDB.failing (db d') LevelDB.OpHas = None.
Proof.
  intros Hhas Hkey Hadd.
  destruct (add_effect d d' key' h' Hadd) as (Hother & _ & Hfail).
  split; [|by rewrite Hfail].
  destruct (decide (key = key')) as [<-|Hne].
  - rewrite (add_present Header EncodeToBytes d key h' Hhas) in Hadd
      by (by rewrite Hkey).
    by injection Hadd as <-.
  - by rewrite Hother.
Qed.

(** X12. [add] does not report a failed write: when [Put] fails, [add]
    returns as after a write and the store is as before, so that a [get]
    of a key that was new finds nothing. *)
Theorem add_write_failure_silent (d d' : blockDB) (key : Hash) (h : Header)
    (e : LevelDB.dbError) :
  LevelDB.failing (db d) LevelDB.OpPut = Some e ->
  add Header EncodeToBytes d key h = Returns d' ->
  d' = d
  ∧ (LevelDB.table (db d) !! key = None ->
     get Header DecodeBytes d' key = Returns None).
Proof.
  intros Hput Hadd.
  assert (Hsame : d' = d).
  { apply add_returns in Hadd as [->|(_ & data & _ & ->)]; [done|].
    unfold LevelDB.Put. rewrite Hput. simpl. by destruct d. }
  split; [done|]. subst d'. intros Hkey.
  unfold get, LevelDB.Get.
  destruct (LevelDB.failing (db d) LevelDB.OpGet); [done|]. by rewrite Hkey.
Qed.

(** X13. [add] panics only when [Has] does not report the key and the
    header cannot be encoded: for a key that the working check finds,
    [add] returns also with a header that has no encoding; and a panic
    of [add] carries the error of the encoder. *)
Theorem add_panics_on_encoding (d : blockDB) (key : Hash) (h : Header) :
  (∀ msg, add Header EncodeToBytes d key h = Panics msg ->
     fst (LevelDB.Has (db d) key) = false
     ∧ ∃ e, EncodeToBytes h = inr e
        ∧ msg = ("Failed encoding header: " ++ e)%string)
  ∧ (∀ e, LevelDB.table (db d) !! key = None ->
          EncodeToBytes h = inr e ->
          add Header EncodeToBytes d key h
          = Panics ("Failed encoding header: " ++ e)%string)
  ∧ (∀ e, LevelDB.failing (db d) LevelDB.OpHas = None ->
          is_Some (LevelDB.table (db d) !! key) ->
          EncodeToBytes h = inr e ->
          add Header EncodeToBytes d key h = Returns d).
Proof.
  split; [|split].
  - intros msg. unfold add.
    destruct (fst (LevelDB.Has (db d) key)); [done|].
    destruct (EncodeToBytes h) as [data|e]; [done|].
    intros [= <-]. split; [done|]. by exists e.
  - intros e Hkey Henc. unfold add.
    by rewrite (Has_absent _ _ Hkey), Henc.
  - intros e Hhas Hkey _. by apply add_present.
Qed.

Lemma Has_Put_ne (d : LevelDB.DB) (k1 k2 : Z) (data : list Byte.byte) :
  k1 ≠ k2 ->
  LevelDB.Has (fst (LevelDB.Put d k1 data)) k2 = LevelDB.Has d k2.
Proof.
  intros Hne. unfold LevelDB.Has, LevelDB.Put.
  destruct (LevelDB.failing d LevelDB.OpPut); simpl; [done|].
  destruct (LevelDB.failing d LevelDB.OpHas); [done|].
  by rewrite lookup_insert_ne.
Qed.

Lemma Put_Put_ne (d : LevelDB.DB) (k1 k2 : Z) (x y : list Byte.byte) :
  k1 ≠ k2 ->
  fst (LevelDB.Put (fst (LevelDB.Put d k1 x)) k2 y)
  = fst (LevelDB.Put (fst (LevelDB.Put d k2 y)) k1 x).
Proof.
  intros Hne. unfold LevelDB.Put.
  destruct (LevelDB.failing d LevelDB.OpPut) eqn:Hp; simpl;
    rewrite ?Hp; simpl; rewrite ?Hp; simpl; [done|].
  by rewrite insert_insert_ne.
Qed.

(** X14. Two [add]s under different keys can be swapped: when both
    return in one order they return in the other, with the same store. *)
Theorem add_commutes (d d1 d12 : blockDB) (k1 k2 : Hash) (h1 h2 : Header) :
  k1 ≠ k2 ->
  add Header EncodeToBytes d k1 h1 = Returns d1 ->
  add Header EncodeToBytes d1 k2 h2 = Returns d12 ->
  ∃ d2, add Header EncodeToBytes d k2 h2 = Returns d2
        ∧ add Header EncodeToBytes d2 k1 h1 = Returns d12.
Proof.
  intros Hne. unfold add.
  destruct (fst (LevelDB.Has (db d) k1)) eqn:Hb1.
  - intros [= <-].
    destruct (fst (LevelDB.Has (db d) k2)) eqn:Hb2.
    + intros [= <-]. exists d. by rewrite ?Hb1.
    + destruct (EncodeToBytes h2) as [data2|e2]; [|done].
      intros [= <-]. eexists. split; [done|]. simpl.
      rewrite Has_Put_ne by done. by rewrite ?Hb1.
  - destruct (EncodeToBytes h1) as [data1|e1] eqn:Henc1; [|done].
    intros [= <-]. simpl. rewrite Has_Put_ne by done.
    destruct (fst (LevelDB.Has (db d) k2)) eqn:Hb2.
    + intros [= <-]. exists d. by rewrite ?Hb1, ?Henc1.
    + destruct (EncodeToBytes h2) as [data2|e2]; [|done].
      intros [= <-]. eexists. split; [done|]. simpl.
      rewrite Has_Put_ne by done. rewrite ?Hb1, ?Henc1.
      by rewrite Put_Put_ne.
Qed.

End HeaderStoreMore.

(** A header is added to the empty store. *)
Lemma add_frame_witness :
  (∀ k, k ≠ 7 ->
     LevelDB.table (db SimMore.one) !! k = LevelDB.table (db SimStore.empty) !! k)
  ∧ (∀ k, is_Some (LevelDB.table (db SimStore.empty) !! k) ->
          is_Some (LevelDB.table (db SimMore.one) !! k))
  ∧ LevelDB.failing (db SimMore.one) = LevelDB.failing (db SimStore.empty).
Proof.
  apply (add_frame SimStore.header SimStore.encode SimStore.empty SimMore.one
           7 [Byte.x61]).
  reflexivity.
Defined.

(** A second header is added under another key. *)
Lemma add_write_once_witness :
  LevelDB.table
    (db {| db := fst (LevelDB.Put (db SimMore.one) 8 [Byte.x62]) |}) !! 7
  = Some [Byte.x61]
  ∧ LevelDB.failing
      (db {| db := fst (LevelDB.Put (db SimMore.one) 8 [Byte.x62]) |})
      LevelDB.OpHas = None.
Proof.
  apply (add_write_once SimStore.header SimStore.encode SimMore.one _ 7 8
           [Byte.x62] [Byte.x61]); reflexivity.
Defined.

(** A header is added to a store whose writes fail. *)
Lemma add_write_failure_silent_witness :
  SimMore.readOnly = SimMore.readOnly
  ∧ (LevelDB.table (db SimMore.readOnly) !! 7 = None ->
     get SimStore.header SimStore.decode SimMore.readOnly 7 = Returns None).
Proof.
  apply (add_write_failure_silent SimStore.header SimStore.encode
           SimStore.decode SimMore.readOnly SimMore.readOnly 7 [Byte.x61]
           (LevelDB.ErrIO "read-only file system")); reflexivity.
Defined.

(** Two headers are added to the empty store, in both orders. *)
Lemma add_commutes_witness :
  ∃ d2, add SimStore.header SimStore.encode SimStore.empty 8 [Byte.x62]
        = Returns d2
        ∧ add SimStore.header SimStore.encode d2 7 [Byte.x61]
          = Returns {| db := fst (LevelDB.Put (db SimMore.one) 8 [Byte.x62]) |}.
Proof.
  apply (add_commutes SimStore.header SimStore.encode SimStore.empty
           SimMore.one _ 7 8 [Byte.x61] [Byte.x62]); [lia|reflexivity..].
Defined.

(** ** The constructor *)

Section NewMonitorProperties.
Context {N : Type} `{NodeAPI N}.
Local Abbreviation objects := (Node -> N).

Lemma healthCheck_step (s : objects) (log : list Mon.startLog) (node : Node) :
  healthCheck (s, log) node
  = (<[node := SetStatus (checkedStatus s node) (s node)]> s,
     log ++ checkedLog s node).
Proof.
  unfold healthCheck, checkedStatus, checkedLog.
  destruct (Version (s node)) as [v [e|]]; simpl; [|done].
  by rewrite <- (assoc_L (++)).
Qed.

(** The health check over distinct nodes: every node gets the status of
    its own version check, and the log is that of the nodes in order. *)
Lemma healthChecks_spec (s : objects) (nodes : list Node) :
  NoDup nodes ->
  (∀ r, fst (foldl healthCheck (s, []) nodes) r
        = if bool_decide (r ∈ nodes)
          then SetStatus (checkedStatus s r) (s r) else s r)
  ∧ snd (foldl healthCheck (s, []) nodes) = flat_map (checkedLog s) nodes.
Proof.
  induction nodes as [|node nodes IH] using rev_ind; intros Hnd; [done|].
  apply list.NoDup_app in Hnd as (Hnd & Hnew & _).
  assert (Hnotin : node ∉ nodes).
  { intros Hin. apply (Hnew node Hin). by apply list_elem_of_singleton. }
  destruct (IH Hnd) as [Hstore Hlog].
  rewrite foldl_app.
  destruct (foldl healthCheck (s, []) nodes) as [s1 log1].
  change (foldl healthCheck (s1, log1) [node])
    with (healthCheck (s1, log1) node).
  simpl in Hstore, Hlog.
  assert (Hs : s1 node = s node).
  { rewrite Hstore. by rewrite bool_decide_eq_false_2. }
  assert (Hst : checkedStatus s1 node = checkedStatus s node
                ∧ checkedLog s1 node = checkedLog s node).
  { unfold checkedStatus, checkedLog. by rewrite Hs. }
  destruct Hst as [Hst1 Hst2].
  rewrite healthCheck_step. simpl. rewrite Hst1, Hst2, Hs. split.
  - intros r. destruct (decide (r = node)) as [->|Hne].
    + rewrite fn_lookup_insert. rewrite bool_decide_eq_true_2; [done|].
      apply elem_of_app. right. by apply list_elem_of_singleton.
    + rewrite fn_lookup_insert_ne by done. rewrite Hstore.
      rewrite (bool_decide_ext (r ∈ nodes) (r ∈ nodes ++ [node])); [done|].
      rewrite elem_of_app, list_elem_of_singleton.
      split; [by left|]. by intros [?|?].
  - rewrite Hlog, flat_map_app. simpl. by rewrite (right_id_L [] (++)).
Qed.

Lemma NewMonitor_unfold (s : objects) (nodes : list Node)
    (db : option blockDB) (reload : Z) :
  NewMonitor s nodes db reload
  = {| monitor := {| Mon.nodes := nodes; Mon.backend := db;
                     Mon.reloadInterval :=
                       if bool_decide (reload = 0) then int_of (10 * Mon.Second)
                       else reload |};
       startError := None;
       startLogged := snd (foldl healthCheck (s, []) nodes);
       firstCycle := doChecks (fst (foldl healthCheck (s, []) nodes)) nodes |}.
Proof.
  unfold NewMonitor. by destruct (foldl healthCheck (s, []) nodes).
Qed.

Lemma NewMonitor_firstCycle (s : objects) (nodes : list Node)
    (db : option blockDB) (reload : Z) :
  firstCycle (NewMonitor s nodes db reload)
  = doChecks (fst (foldl healthCheck (s, []) nodes)) nodes.
Proof. by rewrite NewMonitor_unfold. Qed.


(** X16. The status that the health check of [NewMonitor] sets does not
    outlive the constructor: in a monitor of distinct nodes every node
    has, when [NewMonitor] returns, the status of its first poll, which
    is taken on the object as the health check left it. *)
Theorem NewMonitor_status (s : objects) (nodes : list Node)
    (db : option blockDB) (reload : Z) (node : Node) :
  NoDup nodes -> node ∈ nodes ->
  Status (store (final (firstCycle (NewMonitor s nodes db reload))) node)
  = if bool_decide
         (snd (UpdateLatest (SetStatus (checkedStatus s node) (s node))) = None)
    then NodeStatusOK else NodeStatusUnreachable.
Proof.
  intros Hnd Hin. rewrite NewMonitor_firstCycle.
  destruct (healthChecks_spec s nodes Hnd) as [Hstore _].
  set (s1 := fst (foldl healthCheck (s, []) nodes)) in *.
  destruct (doChecks_phases s1 nodes) as (-> & _).
  destruct (pollNodes_spec s1 nodes Hnd) as (-> & _).
  rewrite bool_decide_eq_true_2 by done.
  unfold polledObject. rewrite Status_SetStatus.
  unfold pollOk. rewrite Hstore.
  by rewrite (bool_decide_eq_true_2 (node ∈ nodes)) by done.
Qed.

(** X17. The health check of a monitor of distinct nodes logs, for every
    node in order, the error of the version check when it fails and then,
    whether it failed or not, the line [RPCNode OK]: there are as many
    such lines as nodes. *)
Theorem NewMonitor_log (s : objects) (nodes : list Node)
    (db : option blockDB) (reload : Z) :
  NoDup nodes ->
  startLogged (NewMonitor s nodes db reload) = flat_map (checkedLog s) nodes
  ∧ length (filter (fun l => isRPCNodeOK l)
              (startLogged (NewMonitor s nodes db reload)))
    = length nodes.
Proof.
  intros Hnd. rewrite NewMonitor_unfold. simpl.
  destruct (healthChecks_spec s nodes Hnd) as [_ ->].
  split; [done|]. clear Hnd.
  induction nodes as [|node nodes IH]; [done|].
  simpl. rewrite list.filter_app, length_app, IH. f_equal.
  unfold checkedLog. by destruct (Version (s node)) as [v [e|]].
Qed.

End NewMonitorProperties.

(** A monitor of three nodes whose version checks fail and whose polls
    succeed. *)
Lemma NewMonitor_status_witness :
  Status (store (final (firstCycle
     (NewMonitor (fun r => (Sim.fleet r, tt)) [0; 1; 2]%nat None 0))) 1%nat)
  = NodeStatusOK.
Proof.
  assert (Hnd : NoDup [0; 1; 2]%nat).
  { apply (bool_decide_unpack _). vm_compute. exact I. }
  assert (Hin : 1%nat ∈ [0; 1; 2]%nat).
  { apply (bool_decide_unpack _). vm_compute. exact I. }
  exact (NewMonitor_status (fun r => (Sim.fleet r, tt)) [0; 1; 2]%nat None 0
           1%nat Hnd Hin).
Defined.

Lemma NewMonitor_log_witness :
  startLogged (NewMonitor (fun r => (Sim.fleet r, tt)) [0; 1]%nat None 0)
  = [Mon.LogErrorCheckingVersion "timeout"; Mon.LogRPCNodeOK "";
     Mon.LogErrorCheckingVersion "timeout"; Mon.LogRPCNodeOK ""]
  ∧ length (filter (fun l => isRPCNodeOK l)
              (startLogged (NewMonitor (fun r => (Sim.fleet r, tt)) [0; 1]%nat None 0)))
    = 2%nat.
Proof.
  assert (Hnd : NoDup [0; 1]%nat).
  { apply (bool_decide_unpack _). vm_compute. exact I. }
  exact (NewMonitor_log (fun r => (Sim.fleet r, tt)) [0; 1]%nat None 0 Hnd).
Defined.

(** ** Writing the report and the headers *)

Lemma IsNotExist_Stat (w : FS.world) (name : string) :
  FS.IsNotExist (FS.Stat w name) = true ->
  FS.files w !! name = None.
Proof.
  unfold FS.Stat. destruct (FS.failing w FS.OpStat name); [done|].
  by destruct (FS.files w !! name).
Qed.

Lemma Stat_absent (w : FS.world) (name : string) :
  FS.failing w FS.OpStat name = false ->
  FS.files w !! name = None ->
  FS.IsNotExist (FS.Stat w name) = true.
Proof. unfold FS.Stat. by intros -> ->. Qed.

Section PersistProperties.
Variable Header : Type.
Variable DecodeBytes : list Byte.byte -> Header + string.
Variable MarshalIndent : Header -> list Byte.byte + string.
Variable hashFile : Hash -> string.

(** What the export loop does to the files when it returns. *)
Lemma exportHashes_files (b : blockDB) (hashes : list Hash)
    (w w' : FS.world) (log log' : list persistEvent) :
  exportHashes Header DecodeBytes MarshalIndent hashFile b hashes w log
  = Returns (w', log') ->
  FS.failing w' = FS.failing w
  ∧ (∀ p v, FS.files w !! p = Some v -> FS.files w' !! p = Some v)
  ∧ (∀ p data, FS.files w !! p = None -> FS.files w' !! p = Some data ->
       ∃ hash hdr, hash ∈ hashes ∧ p = hashFile hash
         ∧ get Header DecodeBytes b hash = Returns (Some hdr)
         ∧ MarshalIndent hdr = inl data).
Proof.
  revert w log. induction hashes as [|hash rest IH]; intros w log; simpl.
  - intros [= <- <-]. split; [done|]. split; [done|].
    intros p data Hp Hp'. congruence.
  - assert (Hrest : ∀ w0 log0,
      exportHashes Header DecodeBytes MarshalIndent hashFile b rest w0 log0
      = Returns (w', log') ->
      FS.failing w0 = FS.failing w ->
      (∀ p v, FS.files w !! p = Some v -> FS.files w0 !! p = Some v) ->
      (∀ p, FS.files w !! p = None -> FS.files w0 !! p = None) ->
      FS.failing w' = FS.failing w
      ∧ (∀ p v, FS.files w !! p = Some v -> FS.files w' !! p = Some v)
      ∧ (∀ p data, FS.files w !! p = None -> FS.files w' !! p = Some data ->
           ∃ hash0 hdr, hash0 ∈ hash :: rest ∧ p = hashFile hash0
             ∧ get Header DecodeBytes b hash0 = Returns (Some hdr)
             ∧ MarshalIndent hdr = inl data)).
    { intros w0 log0 Hrun Hf Hkeep Hnone.
      destruct (IH w0 log0 Hrun) as (Hf' & Hkeep' & Hnew').
      split; [congruence|]. split; [auto|].
      intros p data Hp Hp'.
      destruct (Hnew' p data (Hnone p Hp) Hp') as (h0 & hdr & Hin & Hrest).
      exists h0, hdr. split; [|done]. apply elem_of_cons. by right. }
    destruct (get Header DecodeBytes b hash) as [[hdr|]|msg] eqn:Hget;
      [| by intros ?%Hrest | done].
    destruct (FS.IsNotExist (FS.Stat w (hashFile hash))) eqn:Hstat;
      [| by intros ?%Hrest].
    apply IsNotExist_Stat in Hstat.
    destruct (MarshalIndent hdr) as [data|e] eqn:Hm; [| by intros ?%Hrest].
    unfold FS.WriteFile.
    destruct (FS.failing w FS.OpWrite (hashFile hash)).
    + intros [= <- <-]. split; [done|]. split; [done|].
      intros p data' Hp Hp'. congruence.
    + intros Hrun.
      destruct (IH _ _ Hrun) as (Hf' & Hkeep' & Hnew'). simpl in *.
      split; [done|]. split.
      * intros p v Hp. apply Hkeep'.
        rewrite lookup_insert_ne; [done|]. intros <-. congruence.
      * intros p data' Hp Hp'.
        destruct (decide (p = hashFile hash)) as [->|Hne].
        -- exists hash, hdr. split; [apply elem_of_cons; by left|].
           split; [done|]. split; [done|].
           pose proof (Hkeep' (hashFile hash) data
                         (lookup_insert_eq _ _ _)) as Hw.
           congruence.
        -- destruct (Hnew' p data') as (h0 & hdr0 & Hin & Hrest0);
             [by rewrite lookup_insert_ne|done|].
           exists h0, hdr0. split; [|done]. apply elem_of_cons. by right.
Qed.

(** X18. The files of the headers are written once: the end of a cycle
    leaves every file that exists as it is, but for the report
    [www/data.json]. *)
Theorem persistReport_keeps_files (backend : option blockDB)
    (jsd : list Byte.byte + string) (hashes : list Hash)
    (w w' : FS.world) (log : list persistEvent) (p : string)
    (v : list Byte.byte) :
  persistReport Header DecodeBytes MarshalIndent hashFile backend jsd hashes w
  = Returns (w', log) ->
  p ≠ "www/data.json"%string ->
  FS.files w !! p = Some v ->
  FS.files w' !! p = Some v.
Proof.
  unfold persistReport. intros Hrun Hp Hv.
  destruct jsd as [report|e]; [|by injection Hrun as <- _].
  destruct backend as [b|]; [|by injection Hrun as <- _].
  unfold FS.WriteFile in Hrun.
  destruct (FS.failing w FS.OpWrite "www/data.json");
    [by injection Hrun as <- _|].
  apply exportHashes_files in Hrun as (_ & Hkeep & _).
  apply Hkeep. simpl. by rewrite lookup_insert_ne.
Qed.



(** X21. The end of a cycle panics only as [get] panics, on a hash of
    the report whose stored bytes do not decode. *)
Theorem persistReport_panics (backend : option blockDB)
    (jsd : list Byte.byte + string) (hashes : list Hash) (w : FS.world)
    (msg : string) :
  persistReport Header DecodeBytes MarshalIndent hashFile backend jsd hashes w
  = Panics msg ->
  ∃ b hash, backend = Some b ∧ hash ∈ hashes
            ∧ get Header DecodeBytes b hash = Panics msg.
Proof.
  unfold persistReport.
  destruct jsd as [report|e]; [|done].
  destruct backend as [b|]; [|done].
  destruct (FS.WriteFile w "www/data.json" report) as [w1 [e|]]; [done|].
  intros Hrun. exists b.
  assert (∃ hash, hash ∈ hashes ∧ get Header DecodeBytes b hash = Panics msg)
    as (hash & ? & ?); [|by exists hash].
  revert Hrun. generalize (@nil persistEvent). revert w1.
  induction hashes as [|hash rest IH]; intros w1 log; simpl; [done|].
  assert (Hrest : ∀ w0 log0,
    exportHashes Header DecodeBytes MarshalIndent hashFile b rest w0 log0
    = Panics msg ->
    ∃ h0, h0 ∈ hash :: rest ∧ get Header DecodeBytes b h0 = Panics msg).
  { intros w0 log0 (h0 & Hin & Hp)%IH. exists h0. split; [|done].
    apply elem_of_cons. by right. }
  destruct (get Header DecodeBytes b hash) as [[hdr|]|msg'] eqn:Hget.
  - destruct (FS.IsNotExist (FS.Stat w1 (hashFile hash))); [|apply Hrest].
    destruct (MarshalIndent hdr) as [data|e]; [|apply Hrest].
    destruct (FS.WriteFile w1 (hashFile hash) data) as [w2 [e|]];
      [done|apply Hrest].
  - apply Hrest.
  - intros [= ->]. exists hash. split; [apply elem_of_cons; by left|done].
Qed.

(** The export loop on a file system on which nothing fails. *)
Lemma exportHashes_complete (b : blockDB) (hashes : list Hash)
    (w : FS.world) (log : list persistEvent) :
  (∀ op p, FS.failing w op p = false) ->
  (∀ hash, hash ∈ hashes -> ∃ o, get Header DecodeBytes b hash = Returns o) ->
  ∃ w' log',
    exportHashes Header DecodeBytes MarshalIndent hashFile b hashes w log
    = Returns (w', log')
    ∧ (∀ hash hdr data, hash ∈ hashes ->
         get Header DecodeBytes b hash = Returns (Some hdr) ->
         MarshalIndent hdr = inl data ->
         is_Some (FS.files w' !! hashFile hash))
    ∧ ((∀ e, WarnWriteFile e ∉ log) -> ∀ e, WarnWriteFile e ∉ log').
Proof.
  revert w log. induction hashes as [|hash rest IH]; intros w log Hok Hget.
  - exists w, log. split; [done|]. split; [|done].
    by intros hash hdr data ?%elem_of_nil.
  - assert (Hget' : ∀ h0, h0 ∈ rest ->
              ∃ o, get Header DecodeBytes b h0 = Returns o).
    { intros h0 Hin. apply Hget. apply elem_of_cons. by right. }
    destruct (Hget hash) as [o Ho]; [apply elem_of_cons; by left|].
    simpl. rewrite Ho.
    assert (Hstep : ∀ w0 log0,
      (∀ op p, FS.failing w0 op p = false) ->
      (∀ hdr data, o = Some hdr -> MarshalIndent hdr = inl data ->
                   is_Some (FS.files w0 !! hashFile hash)) ->
      ((∀ e, WarnWriteFile e ∉ log) -> ∀ e, WarnWriteFile e ∉ log0) ->
      ∃ w' log',
        exportHashes Header DecodeBytes MarshalIndent hashFile b rest w0 log0
        = Returns (w', log')
        ∧ (∀ h0 hdr data, h0 ∈ hash :: rest ->
             get Header DecodeBytes b h0 = Returns (Some hdr) ->
             MarshalIndent hdr = inl data ->
             is_Some (FS.files w' !! hashFile h0))
        ∧ ((∀ e, WarnWriteFile e ∉ log) -> ∀ e, WarnWriteFile e ∉ log')).
    { intros w0 log0 Hok0 Hhere Hlog0.
      destruct (IH w0 log0 Hok0 Hget') as (w' & log' & Hrun & Hall & Hlog').
      exists w', log'. split; [done|]. split; [|auto].
      intros h0 hdr data [->|Hin]%elem_of_cons Hg Hm; [|eauto].
      rewrite Ho in Hg. injection Hg as ->.
      destruct (Hhere hdr data eq_refl Hm) as [v Hv].
      apply exportHashes_files in Hrun as (_ & Hkeep & _).
      exists v. by apply Hkeep. }
    assert (Hsnoc : ∀ ev, (∀ e, ev ≠ WarnWriteFile e) ->
              (∀ e, WarnWriteFile e ∉ log) ->
              ∀ e, WarnWriteFile e ∉ log ++ [ev]).
    { intros ev Hev Hlog e [Hin|Hin%list_elem_of_singleton]%elem_of_app.
      - by apply (Hlog e).
      - by apply (Hev e). }
    destruct o as [hdr|].
    + destruct (FS.IsNotExist (FS.Stat w (hashFile hash))) eqn:Hstat.
      * apply IsNotExist_Stat in Hstat.
        destruct (MarshalIndent hdr) as [data|e] eqn:Hm.
        -- unfold FS.WriteFile. rewrite Hok. apply Hstep; [done| |done].
           intros hdr' data' _ _. simpl. rewrite lookup_insert_eq. by eexists.
        -- apply Hstep; [done| |by apply Hsnoc].
           intros hdr' data' [= <-]. congruence.
      * apply Hstep; [done| |done]. intros hdr' data' _ _.
        destruct (FS.files w !! hashFile hash) as [v|] eqn:Hv; [by eexists|].
        by rewrite (Stat_absent w _ (Hok _ _) Hv) in Hstat.
    + apply Hstep; [done|done|by apply Hsnoc].
Qed.

(** X22. When nothing fails (there is a store, the report marshals, the
    file system works and no stored header is undecodable) the end of
    a cycle returns, the report file holds the marshalled report, no
    write failure is logged, and the file of every hash of the report
    whose header the store has and can marshal exists. *)
Theorem persistReport_complete (b : blockDB) (report : list Byte.byte)
    (hashes : list Hash) (w : FS.world) :
  (∀ op p, FS.failing w op p = false) ->
  (∀ hash, hash ∈ hashes -> ∃ o, get Header DecodeBytes b hash = Returns o) ->
  ∃ w' log,
    persistReport Header DecodeBytes MarshalIndent hashFile (Some b)
      (inl report) hashes w
    = Returns (w', log)
    ∧ FS.files w' !! "www/data.json"%string = Some report
    ∧ (∀ e, WarnWriteFile e ∉ log)
    ∧ (∀ hash hdr data, hash ∈ hashes ->
         get Header DecodeBytes b hash = Returns (Some hdr) ->
         MarshalIndent hdr = inl data ->
         is_Some (FS.files w' !! hashFile hash)).
Proof.
  intros Hok Hget. unfold persistReport, FS.WriteFile. rewrite Hok.
  set (w1 := {| FS.files := <[("www/data.json"%string) := report]> (FS.files w);
                FS.failing := FS.failing w |}).
  destruct (exportHashes_complete b hashes w1 [] Hok Hget)
    as (w' & log & Hrun & Hall & Hlog).
  exists w', log. split; [done|]. split; [|split; [|done]].
  - apply exportHashes_files in Hrun as (_ & Hkeep & _).
    apply Hkeep. simpl. apply lookup_insert_eq.
  - apply Hlog. by intros e ?%elem_of_nil.
Qed.

End PersistProperties.

(** The file of the hash 7 exists before the cycle and is kept. *)
Lemma persistReport_keeps_files_witness :
  FS.files (fst (SimDisk.ran SimDisk.exported)) !! "www/hashes/0x07.json"%string
  = Some [Byte.x00].
Proof.
  apply (persistReport_keeps_files SimStore.header SimStore.decode
           SimStore.encode SimMore.hashFile (Some SimDisk.two)
           (inl [Byte.x7b; Byte.x7d]) [7; 8] SimDisk.old
           (fst (SimDisk.ran SimDisk.exported))
           (snd (SimDisk.ran SimDisk.exported))).
  - vm_compute. reflexivity.
  - discriminate.
  - vm_compute. reflexivity.
Defined.



(** The bytes stored under the hash 7 do not decode. *)
Lemma persistReport_panics_witness :
  ∃ b hash, Some SimDisk.broken = Some b ∧ hash ∈ [7]
            ∧ get SimStore.header SimStore.decode b hash
              = Panics "Failed decoding our own data: too few elements".
Proof.
  apply (persistReport_panics SimStore.header SimStore.decode SimStore.encode
           SimMore.hashFile (Some SimDisk.broken) (inl [Byte.x7b; Byte.x7d])
           [7] SimMore.disk).
  vm_compute. reflexivity.
Defined.

(** Both headers are exported to an empty file system. *)
Lemma persistReport_complete_witness :
  ∃ w' log,
    persistReport SimStore.header SimStore.decode SimStore.encode
      SimMore.hashFile (Some SimDisk.two) (inl [Byte.x7b; Byte.x7d]) [7; 8]
      SimMore.disk
    = Returns (w', log)
    ∧ FS.files w' !! "www/data.json"%string = Some [Byte.x7b; Byte.x7d]
    ∧ (∀ e, WarnWriteFile e ∉ log)
    ∧ (∀ hash hdr data, hash ∈ [7; 8] ->
         get SimStore.header SimStore.decode SimDisk.two hash
         = Returns (Some hdr) ->
         SimStore.encode hdr = inl data ->
         is_Some (FS.files w' !! SimMore.hashFile hash)).
Proof.
  apply (persistReport_complete SimStore.header SimStore.decode
           SimStore.encode SimMore.hashFile SimDisk.two
           [Byte.x7b; Byte.x7d] [7; 8] SimMore.disk).
  - intros op p. reflexivity.
  - intros hash Hin.
    apply elem_of_cons in Hin as [->|Hin]; [by eexists|].
    apply elem_of_cons in Hin as [->|Hin]; [by eexists|].
    by apply elem_of_nil in Hin.
Defined.
